(** * looker-lawyer: the helpers of [fonz/utils.py] and the bisection engine

    A shallow embedding of [src/fonz/utils.py] (URL composition, SQL error
    context extraction, error line parsing) together with a model of the
    validation pipeline the specification describes.

    Conventions.
    - A Python [str] is a [string]; its characters are read as code points
      below 256, so the class [\d] of the [re] module is the ten decimal
      digits.
    - A Python [int] is a [Z]; [int(s)] is the value of a decimal numeral,
      and raises [ValueError] past the interpreter's limit on the number of
      digits, at its default of 4300.
    - A call that may raise returns a [result]. *)

From Stdlib Require Import Ascii String ZArith.
From stdpp Require Import gmap strings list.
From Equations Require Import Equations.

(** ** Python primitives *)

Module Py.

(** The exceptions this code can raise. *)
Inductive exn : Type :=
| TypeError (msg : string)
| ValueError
| IndexError
| UnboundLocalError (name : string).

Inductive result (A : Type) : Type :=
| Return (a : A)
| Raise (e : exn).
Arguments Return {A} a.
Arguments Raise {A} e.

(** The line feed, ["\n"]. *)
Definition LF : ascii := "010"%char.
Definition NL : string := String LF "".

(** [s.split(sep)] for a separator of one character: never empty. *)
Fixpoint str_split (sep : ascii) (s : string) : list string :=
  match s with
  | EmptyString => [EmptyString]
  | String c s' =>
      if Ascii.eqb c sep then EmptyString :: str_split sep s'
      else match str_split sep s' with
           | piece :: pieces => String c piece :: pieces
           | [] => [String c EmptyString]
           end
  end.

(** [sep.join(parts)]. *)
Fixpoint str_join (sep : string) (parts : list string) : string :=
  match parts with
  | [] => EmptyString
  | [p] => p
  | p :: ps => p +:+ sep +:+ str_join sep ps
  end.

(** Membership of a character in the [chars] argument of [strip]. *)
Fixpoint in_chars (c : ascii) (chars : string) : bool :=
  match chars with
  | EmptyString => false
  | String d chars' => Ascii.eqb c d || in_chars c chars'
  end.

Fixpoint str_lstrip (chars s : string) : string :=
  match s with
  | EmptyString => EmptyString
  | String c s' => if in_chars c chars then str_lstrip chars s' else s
  end.

Fixpoint str_rstrip (chars s : string) : string :=
  match s with
  | EmptyString => EmptyString
  | String c s' =>
      match str_rstrip chars s' with
      | EmptyString => if in_chars c chars then EmptyString else String c EmptyString
      | kept => String c kept
      end
  end.

(** [c * n]: the character [c], [n] times. *)
Fixpoint str_mul (c : ascii) (n : nat) : string :=
  match n with
  | O => EmptyString
  | S n' => String c (str_mul c n')
  end.

(** [s.strip(chars)]: leading, then trailing characters of [chars] go. *)
Definition str_strip (chars s : string) : string :=
  str_rstrip chars (str_lstrip chars s).

(** The adjustment of one slice index to a sequence of [len] items:
    a negative index counts from the end, and both ends saturate. *)
Definition slice_index (len i : Z) : Z :=
  if (i <? 0)%Z then Z.max 0 (i + len) else Z.min i len.

(** [l[start:stop]]. *)
Definition slice {A : Type} (l : list A) (start stop : Z) : list A :=
  let len := Z.of_nat (length l) in
  let lo := slice_index len start in
  let hi := slice_index len stop in
  take (Z.to_nat (hi - lo)) (drop (Z.to_nat lo) l).

(** [str(x)], the protocol every path element answers to. *)
Class Str (A : Type) : Type := str : A -> string.
Global Hint Mode Str ! : typeclass_instances.

(** [str] of a [str] is the string itself. *)
#[global] Instance str_string : Str string := fun s => s.

(** A list whose items come from two types, as in [[base_url] + path]. *)
#[global] Instance str_sum {A B : Type} `{Str A, Str B} : Str (A + B) :=
  fun x => match x with inl a => str a | inr b => str b end.

(** [s[:k]] and [s[k:]] for [k >= 0]. *)
Fixpoint str_take (k : nat) (s : string) : string :=
  match k, s with
  | S k', String c s' => String c (str_take k' s')
  | _, _ => EmptyString
  end.

Fixpoint str_drop (k : nat) (s : string) : string :=
  match k, s with
  | S k', String _ s' => str_drop k' s'
  | _, _ => s
  end.

Definition is_digit (c : ascii) : bool :=
  (48 <=? nat_of_ascii c) && (nat_of_ascii c <=? 57).

(** The length of the longest prefix of [s] made of digits. *)
Fixpoint digit_run (s : string) : nat :=
  match s with
  | String c s' => if is_digit c then S (digit_run s') else 0
  | EmptyString => 0
  end.

(** The conversion of a run of digits, most significant digit first. *)
Definition digit_value (c : ascii) : Z := (Z.of_nat (nat_of_ascii c) - 48)%Z.

Fixpoint int_from (acc : Z) (s : string) : Z :=
  match s with
  | EmptyString => acc
  | String c s' => int_from (10 * acc + digit_value c)%Z s'
  end.

(** The default of [sys.int_max_str_digits]: the longest numeral, in
    digits and leading zeros included, that [int] converts. *)
Definition int_max_str_digits : nat := 4300.

(** [int(s)] for a string of decimal digits, which is all a group of
    [\d+] can be: the value of the numeral, or [ValueError] when it has
    more digits than the interpreter converts. The other literals [int]
    accepts (a sign, blanks around, underscores between digits) are not
    modelled: a string that is not a run of digits is an invalid
    literal here. *)
Definition int (s : string) : result Z :=
  if (0 <? String.length s) && (digit_run s =? String.length s) then
    if String.length s <=? int_max_str_digits then Return (int_from 0 s)
    else Raise ValueError
  else Raise ValueError.

(** The fragment of the [re] syntax this code uses: a sequence of
    literal characters and of greedy runs [\d+], in a capturing group
    or not. *)
Inductive re_item : Type :=
| Lit (c : ascii)
| Digits1 (capture : bool).

Definition regex : Type := list re_item.

(** A greedy quantifier takes the longest run first and gives
    characters back one at a time, down to a single one. *)
Fixpoint try_lengths {R : Type} (k : nat) (attempt : nat -> option R)
    : option R :=
  match k with
  | O => None
  | S k' =>
      match attempt k with
      | Some r => Some r
      | None => try_lengths k' attempt
      end
  end.

(** A match of [re] at the start of [s]: the groups captured (last one
    first in [groups]) and what follows the match. *)
Fixpoint match_here (re : regex) (s : string) (groups : list string)
    : option (list string * string) :=
  match re with
  | [] => Some (rev groups, s)
  | Lit c :: re' =>
      match s with
      | String d s' => if Ascii.eqb c d then match_here re' s' groups else None
      | EmptyString => None
      end
  | Digits1 capture :: re' =>
      try_lengths (digit_run s)
        (fun k => match_here re' (str_drop k s)
                    (if capture then str_take k s :: groups else groups))
  end.

Definition inspect {A : Type} (a : A) : {b : A | a = b} := exist _ a eq_refl.

(** [re.findall(re, s)] for a pattern with one capturing group: the
    group of every match, scanning from the left; the scan resumes
    where a match ended, or one character further where there was none
    (or where the match was empty). *)
Equations findall (re : regex) (s : string) : list string
    by wf (String.length s) lt :=
  findall re EmptyString with match_here re EmptyString [] := {
    | Some (groups, _) => [hd EmptyString groups]
    | None => [] };
  findall re (String c s') with inspect (match_here re (String c s') []) := {
    | exist _ (Some (groups, rest)) _
        with decide (String.length rest < String.length (String c s')) := {
        | left _ => hd EmptyString groups :: findall re rest
        | right _ => hd EmptyString groups :: findall re s' }
    | exist _ None _ => findall re s' }.

(** [l[0]]. *)
Definition first_item {A : Type} (l : list A) : result A :=
  match l with
  | x :: _ => Return x
  | [] => Raise IndexError
  end.

(** Reading a local variable: one that was never bound raises. *)
Definition load_local {A : Type} (name : string) (binding : option A)
    : result A :=
  match binding with
  | Some a => Return a
  | None => Raise (UnboundLocalError name)
  end.

End Py.

(** ** [fonz/utils.py] *)

Module Utils.
Import Py.

(** The [path] argument of [compose_url] as the interpreter sees it:
    a list of items, or a value of some other type. *)
Inductive path_arg (A : Type) : Type :=
| PathList (items : list A)
| PathOther (value : A).
Arguments PathList {A} items.
Arguments PathOther {A} value.

Definition compose_url {A : Type} `{Str A}
    (base_url : string) (path : path_arg A) : result string :=
  match path with
  | PathOther _ => Raise (TypeError "URL path must be a list")
  | PathList items =>
      let parts : list (string + A) := [inl base_url] ++ (inr <$> items) in
      let url := str_join "/" ((fun part => str_strip "/" (str part)) <$> parts) in
      Return url
  end.

(** For a list of strings, mark a specified line with a prepended
    character. *)
Definition mark_line (lines : list string) (line_number : Z) (char : string)
    : list string :=
  imap (fun i line =>
          if bool_decide (Z.of_nat i = line_number)
          then char +:+ " " +:+ line
          else "| " +:+ line) lines.

(** Extract a line of SQL with a specified amount of surrounding
    context. *)
Definition extract_sql_context (sql : string) (line_number window_size : Z)
    : string :=
  let split := str_split LF sql in
  let len := Z.of_nat (length split) in
  let line_number := (line_number - 1)%Z in
  let line_start := (line_number - window_size)%Z in
  let line_end := (line_number + (window_size + 1))%Z in
  let line_start := if bool_decide (line_start >= 0)%Z then line_start else 0%Z in
  let line_end := if bool_decide (line_end <= len)%Z then line_end else len in
  let selected_lines := slice split line_start line_end in
  let marked := mark_line selected_lines window_size "*" in
  let context := str_join NL marked in
  context.

(** The default of the [window_size] parameter. *)
Definition default_window_size : Z := 2.

Definition BQ_LINE_NUM_PATTERN : regex :=
  [Lit "a"; Lit "t"; Lit " "; Lit "["; Digits1 true; Lit ":"; Digits1 false;
   Lit "]"].

(** Extract the line number for a SQL error from the error message.
    The local [line_number] is bound in the [try] body and again in the
    [else] branch; the handler binds nothing, and what [int] raises in
    the [else] branch is not handled. *)
Definition parse_error_line_number (error_message : string) : result Z :=
  match first_item (findall BQ_LINE_NUM_PATTERN error_message) with
  | Return line_number =>
      match int line_number with
      | Return line_number => load_local "line_number" (Some line_number)
      | Raise e => Raise e
      end
  | Raise IndexError => load_local "line_number" None
  | Raise e => Raise e
  end.

End Utils.

(** ** The validation pipeline

    [spectacles/validators/sql.py] ([Query], [Query.divide] and the
    [SqlValidator] workers the unit tests drive) is not among the sources;
    this module follows sections 3 to 5 of the specification. *)

Module Validator.

(** Modelled from the spec: the statuses of a Query (section 3); the
    source of [Query] is missing. *)
Inductive status : Type :=
| Pending
| Dispatched
| CompletedPassed
| CompletedErrored
| Divided.

#[global] Instance status_eq_dec : EqDecision status.
Proof. solve_decision. Defined.

(** Modelled from the spec: the [Query] entity of section 3 (its class
    is in the missing [spectacles/validators/sql.py]). A unit of
    validation work: the owning explore, the ordered fields, the remote
    task once there is one, the status and the error message of a content
    error. Fields are named by their keys, as section 9 advises. *)
Record Query : Type := mkQuery {
  explore : string;
  fields : list string;
  query_task_id : option string;
  query_status : status;
  error : option string
}.

Definition with_status (st : status) (q : Query) : Query :=
  mkQuery (explore q) (fields q) (query_task_id q) st (error q).

Definition with_task (task : string) (q : Query) : Query :=
  mkQuery (explore q) (fields q) (Some task) (query_status q) (error q).

Definition with_error (message : string) (q : Query) : Query :=
  mkQuery (explore q) (fields q) (query_task_id q) (query_status q)
    (Some message).

(** A new pending query on the same explore. *)
Definition child (q : Query) (half : list string) : Query :=
  mkQuery (explore q) half None Pending None.

(** [ceil(n/2)]. *)
Definition ceil_half (n : nat) : nat := (n + 1) / 2.

(** Modelled from the spec: [Query.divide], the Bisector of section 4.5
    (its source file is missing). A query of more than one field splits
    at index [ceil(n/2)] into two pending queries on the same explore;
    a query of one field is terminal and does not divide. *)
Definition divide (q : Query) : option (Query * Query) :=
  let n := length (fields q) in
  if decide (1 < n) then
    let middle := ceil_half n in
    Some (child q (take middle (fields q)), child q (drop middle (fields q)))
  else None.

(** Modelled from the spec: an item of the WorkQueue of section 4.2 (the
    queue is built by the missing [SqlValidator]): a query of the table,
    or the sentinel. *)
Inductive work_item : Type :=
| Work (q : nat)
| ShutdownSignal.

(** Modelled from the spec: where a Dispatcher of section 4.3 stands
    (the worker is the missing [SqlValidator._run_query]): waiting on the
    WorkQueue, waiting for a permit with a query in hand, creating the
    remote query and task with the permit held, or gone. *)
Inductive dispatcher : Type :=
| Waiting
| Acquiring (q : nat)
| Creating (q : nat)
| Exited.

(** Modelled from the spec: what [getMultiTaskResults] of section 6
    answers for one task (the client is missing). *)
Inductive remote_status : Type :=
| Running
| Complete
| Error (message : string).

(** Modelled from the spec: the shared state of a run (sections 2, 4
    and 5). [queries] is the table of every query created so far, by
    index; [permits] counts the free permits of the ConcurrencyGate;
    [releasing] counts the outcomes the Collector has recorded and
    whose permit it has not yet returned; [failed] is set by an
    InfrastructureError, after which nothing runs. *)
Record pipeline : Type := mkPipeline {
  permits : nat;
  queries : list Query;
  work_queue : list work_item;
  running_set : list string;
  task_registry : gmap string nat;
  dispatchers : list dispatcher;
  releasing : nat;
  failed : bool
}.

(** One atomic action of a worker, of the Collector or of the
    Orchestrator. [Create w None] is a non-success response of the
    remote service, [PollFails] one of the poll call. *)
Inductive event : Type :=
| Dequeue (w : nat)
| Acquire (w : nat)
| Create (w : nat) (response : option string)
| Poll (task : string) (answer : remote_status)
| PollFails
| Release
| SendShutdown.

Definition set_status (i : nat) (st : status) (qs : list Query) : list Query :=
  match qs !! i with
  | Some q => <[i := with_status st q]> qs
  | None => qs
  end.

Definition set_dispatched (i : nat) (task : string) (qs : list Query)
    : list Query :=
  match qs !! i with
  | Some q => <[i := with_status Dispatched (with_task task q)]> qs
  | None => qs
  end.

Definition set_errored (i : nat) (message : string) (qs : list Query)
    : list Query :=
  match qs !! i with
  | Some q => <[i := with_status CompletedErrored (with_error message q)]> qs
  | None => qs
  end.

Definition remove_task (task : string) (tasks : list string) : list string :=
  filter (λ t, t ≠ task) tasks.

Section Run.
(** The size of the ConcurrencyGate and the fail-fast mode. *)
Variables (gate_size : nat) (fail_fast : bool).

(** Modelled from the spec: the handling of a content error of query
    [i] by the Collector of section 4.4 (the missing
    [SqlValidator._get_query_results]): bisect and requeue, or settle
    the query. *)
Definition content_error (i : nat) (message : string) (s : pipeline)
    : list Query * list work_item :=
  match queries s !! i with
  | Some q =>
      match (if fail_fast then None else divide q) with
      | Some (first_half, second_half) =>
          let n := length (queries s) in
          (set_status i Divided (queries s) ++ [first_half; second_half],
           work_queue s ++ [Work n; Work (S n)])
      | None => (set_errored i message (queries s), work_queue s)
      end
  | None => (queries s, work_queue s)
  end.

(** Modelled from the spec: the actions of sections 4.3, 4.4 and 4.6.
    [None] when the action is not enabled in [s]. The remote service
    names a new task with an identifier no outstanding task has. *)
Definition step (ev : event) (s : pipeline) : option pipeline :=
  if failed s then None else
  match ev with
  | Dequeue w =>
      match dispatchers s !! w, work_queue s with
      | Some Waiting, Work q :: rest =>
          Some (mkPipeline (permits s) (queries s) rest (running_set s)
                  (task_registry s) (<[w := Acquiring q]> (dispatchers s))
                  (releasing s) false)
      | Some Waiting, ShutdownSignal :: rest =>
          Some (mkPipeline (permits s) (queries s) rest (running_set s)
                  (task_registry s) (<[w := Exited]> (dispatchers s))
                  (releasing s) false)
      | _, _ => None
      end
  | Acquire w =>
      match dispatchers s !! w, permits s with
      | Some (Acquiring q), S free =>
          Some (mkPipeline free (queries s) (work_queue s) (running_set s)
                  (task_registry s) (<[w := Creating q]> (dispatchers s))
                  (releasing s) false)
      | _, _ => None
      end
  | Create w response =>
      match dispatchers s !! w with
      | Some (Creating q) =>
          match response with
          | None =>
              Some (mkPipeline (permits s) (queries s) (work_queue s)
                      (running_set s) (task_registry s) (dispatchers s)
                      (releasing s) true)
          | Some task =>
              if decide (task_registry s !! task = None) then
                Some (mkPipeline (permits s)
                        (set_dispatched q task (queries s))
                        (work_queue s) (running_set s ++ [task])
                        (<[task := q]> (task_registry s))
                        (<[w := Waiting]> (dispatchers s))
                        (releasing s) false)
              else None
          end
      | _ => None
      end
  | Poll task answer =>
      match decide (task ∈ running_set s), task_registry s !! task with
      | left _, Some i =>
          match answer with
          | Running => Some s
          | Complete =>
              Some (mkPipeline (permits s)
                      (set_status i CompletedPassed (queries s))
                      (work_queue s) (remove_task task (running_set s))
                      (delete task (task_registry s)) (dispatchers s)
                      (S (releasing s)) false)
          | Error message =>
              let '(qs, wq) := content_error i message s in
              Some (mkPipeline (permits s) qs wq
                      (remove_task task (running_set s))
                      (delete task (task_registry s)) (dispatchers s)
                      (S (releasing s)) false)
          end
      | _, _ => None
      end
  | PollFails =>
      Some (mkPipeline (permits s) (queries s) (work_queue s)
              (running_set s) (task_registry s) (dispatchers s)
              (releasing s) true)
  | Release =>
      match releasing s with
      | S owed =>
          Some (mkPipeline (S (permits s)) (queries s) (work_queue s)
                  (running_set s) (task_registry s) (dispatchers s)
                  owed false)
      | O => None
      end
  | SendShutdown =>
      Some (mkPipeline (permits s) (queries s)
              (work_queue s ++ [ShutdownSignal]) (running_set s)
              (task_registry s) (dispatchers s) (releasing s) false)
  end.

(** A run: the actions of a trace, one after the other. *)
Fixpoint run (trace : list event) (s : pipeline) : option pipeline :=
  match trace with
  | [] => Some s
  | ev :: trace' =>
      match step ev s with
      | Some s' => run trace' s'
      | None => None
      end
  end.

(** Modelled from the spec: the seeding by the Orchestrator of section
    4.6 (missing with [SqlValidator]): one pending root query per explore
    on the WorkQueue, every permit free, [workers] Dispatchers waiting. *)
Definition seed (roots : list (string * list string)) (workers : nat)
    : pipeline :=
  mkPipeline gate_size
    ((λ r, mkQuery r.1 r.2 None Pending None) <$> roots)
    (Work <$> seq 0 (length roots))
    [] ∅ (replicate workers Waiting) 0 false.

End Run.

(** The number of queries in Dispatched status. *)
Definition dispatched_count (s : pipeline) : nat :=
  length (filter (λ q, query_status q = Dispatched) (queries s)).

(** The number of Dispatchers that hold a permit for a query they have
    not dispatched yet. *)
Definition holds_permit (d : dispatcher) : bool :=
  match d with
  | Creating _ => true
  | _ => false
  end.

Definition holding (s : pipeline) : nat :=
  length (filter (λ d, holds_permit d = true) (dispatchers s)).

End Validator.

Import Py Utils Validator.

(** ** Vocabulary of the statements *)

(** A decimal numeral: one digit or more. *)
Fixpoint all_digits (s : string) : bool :=
  match s with
  | EmptyString => true
  | String c s' => is_digit c && all_digits s'
  end.

Definition numeral (s : string) : Prop := s ≠ EmptyString ∧ all_digits s = true.

(** The position marker [at [L:C]], with numerals [L] and [C], occurs in
    [msg] at offset [i]. *)
Definition marker_at (msg : string) (i : nat) (L : string) : Prop :=
  ∃ before C after,
    String.length before = i ∧ numeral L ∧ numeral C
    ∧ msg = before +:+ "at [" +:+ L +:+ ":" +:+ C +:+ "]" +:+ after.

(** The value of a decimal digit, read off the table of the ten digits. *)
Definition digit_of (c : ascii) : Z :=
  match c with
  | "0"%char => 0
  | "1"%char => 1
  | "2"%char => 2
  | "3"%char => 3
  | "4"%char => 4
  | "5"%char => 5
  | "6"%char => 6
  | "7"%char => 7
  | "8"%char => 8
  | "9"%char => 9
  | _ => 0
  end%Z.

(** The integer a decimal numeral denotes: every digit counts for its
    value times the power of ten of its place. *)
Fixpoint numeral_value (s : string) : Z :=
  match s with
  | EmptyString => 0
  | String c s' =>
      digit_of c * 10 ^ Z.of_nat (String.length s') + numeral_value s'
  end%Z.

(** A numeral of one digit more than [int] converts, and a message whose
    marker holds it. *)
Definition long_numeral : string := str_mul "1" (S int_max_str_digits).

Definition long_message : string := "at [" +:+ long_numeral +:+ ":1]".

(** The window of [w] lines on each side of line [L], lines counted from
    1, clamped to the bounds of the text: the lines whose index lies
    between [L - 1 - w] and [L - 1 + w], in their order. *)
Definition window_lines (lines : list string) (L w : Z) : list string :=
  (filter (λ p, (L - 1 - w ≤ Z.of_nat p.1 ≤ L - 1 + w)%Z) (imap pair lines)).*2.

(** The accounting of the ConcurrencyGate: every permit is free, or held
    by a Dispatcher that is creating its remote task, or stands behind a
    registered task, or is about to be returned by the Collector; and
    every query in Dispatched status has a task in the registry. *)
Definition gate_invariant (gate_size : nat) (s : pipeline) : Prop :=
  size (task_registry s) + holding s + releasing s + permits s = gate_size
  ∧ ∀ i q, queries s !! i = Some q → query_status q = Dispatched →
           ∃ task, task_registry s !! task = Some i.

(** A run of the scenario of section 8 with one permit and two workers:
    the query on [a, b, c] fails and is divided, and the second child
    waits for the permit the first one holds. *)
Definition bisect_trace : list event :=
  [Dequeue 0; Acquire 0; Create 0 (Some "t1"); Poll "t1" (Error "boom");
   Release; Dequeue 0; Dequeue 1; Acquire 0; Create 0 (Some "t2")].

Definition bisect_seed : pipeline := seed 1 [("users", ["a"; "b"; "c"])] 2.

Definition bisect_state : pipeline :=
  default bisect_seed (run false bisect_trace bisect_seed).

(** A text of five lines. *)
Definition sql5 : string := str_join NL ["a"; "b"; "c"; "d"; "e"].

(** ** Strings *)

Section Strings.

(** [+:+] does not unfold under [simpl]; these two equations do it. *)
Lemma str_app_nil_l (b : string) : "" +:+ b = b.
Proof. reflexivity. Qed.

Lemma str_app_cons (x : ascii) (a b : string) :
  String x a +:+ b = String x (a +:+ b).
Proof. reflexivity. Qed.

Lemma str_app_assoc (a b c : string) : (a +:+ b) +:+ c = a +:+ (b +:+ c).
Proof.
  induction a as [|x a IH]; [done |].
  by rewrite !str_app_cons, IH.
Qed.

Lemma str_app_nil_r (a : string) : a +:+ "" = a.
Proof.
  induction a as [|x a IH]; [done |].
  by rewrite str_app_cons, IH.
Qed.

Lemma str_length_app (a b : string) :
  String.length (a +:+ b) = String.length a + String.length b.
Proof.
  induction a as [|x a IH]; [done |].
  rewrite str_app_cons. simpl. by rewrite IH.
Qed.

Lemma in_chars_app (c : ascii) (a b : string) :
  in_chars c (a +:+ b) = in_chars c a || in_chars c b.
Proof.
  induction a as [|x a IH]; [done |].
  rewrite str_app_cons. simpl. by rewrite IH, orb_assoc.
Qed.

Lemma str_take_drop (k : nat) (s : string) : str_take k s +:+ str_drop k s = s.
Proof.
  revert s; induction k as [|k IH]; intros [|c s]; simpl; try done.
  by rewrite str_app_cons, IH.
Qed.

Lemma str_drop_app_length (a b : string) :
  str_drop (String.length a) (a +:+ b) = b.
Proof.
  induction a as [|x a IH]; [by destruct b |].
  by rewrite str_app_cons.
Qed.

Lemma str_take_app_length (a b : string) :
  str_take (String.length a) (a +:+ b) = a.
Proof.
  induction a as [|x a IH]; [by destruct b |].
  rewrite str_app_cons. simpl. by rewrite IH.
Qed.

(** *** [split] and [join] *)

Lemma str_split_nonempty (sep : ascii) (s : string) : str_split sep s ≠ [].
Proof.
  destruct s as [|c s]; simpl; [done |].
  destruct (Ascii.eqb c sep); [done |].
  by destruct (str_split sep s).
Qed.

(** No piece of a split holds the separator. *)
Lemma str_split_pieces (sep : ascii) (s : string) :
  Forall (λ piece, in_chars sep (piece : string) = false) (str_split sep s).
Proof.
  induction s as [|c s IH]; simpl.
  - by repeat constructor.
  - destruct (Ascii.eqb c sep) eqn:E.
    + by constructor.
    + destruct (str_split sep s) as [|piece pieces]; simpl.
      * repeat constructor. simpl. by rewrite Ascii.eqb_sym, E.
      * inversion IH; subst. constructor; [|done].
        simpl. by rewrite Ascii.eqb_sym, E.
Qed.

Lemma str_split_app_sep (sep : ascii) (a b : string) :
  in_chars sep a = false →
  str_split sep (a +:+ String sep b) = a :: str_split sep b.
Proof.
  induction a as [|x a IH]; intros Ha.
  - rewrite str_app_nil_l. simpl. by rewrite Ascii.eqb_refl.
  - simpl in Ha. apply orb_false_iff in Ha as [Hx Ha].
    rewrite str_app_cons. simpl.
    by rewrite Ascii.eqb_sym, Hx, (IH Ha).
Qed.

Lemma str_split_no_sep (sep : ascii) (a : string) :
  in_chars sep a = false → str_split sep a = [a].
Proof.
  induction a as [|x a IH]; simpl; intros Ha; [done |].
  apply orb_false_iff in Ha as [Hx Ha].
  by rewrite Ascii.eqb_sym, Hx, (IH Ha).
Qed.

Lemma str_join_cons (sep p p' : string) (ps : list string) :
  str_join sep (p :: p' :: ps) = p +:+ sep +:+ str_join sep (p' :: ps).
Proof. reflexivity. Qed.

(** Splitting a join gives the parts back, when there is a part and no
    part holds the separator. *)
Lemma str_split_join (sep : ascii) (parts : list string) :
  parts ≠ [] →
  Forall (λ part, in_chars sep (part : string) = false) parts →
  str_split sep (str_join (String sep "") parts) = parts.
Proof.
  induction parts as [|p ps IH]; intros Hne Hall; [done |].
  inversion Hall as [|? ? Hp Hps]; subst.
  destruct ps as [|p' ps].
  - simpl. by apply str_split_no_sep.
  - rewrite str_join_cons, str_app_cons, str_app_nil_l.
    rewrite str_split_app_sep by done.
    by rewrite IH.
Qed.

Lemma str_join_app (sep : string) (l1 l2 : list string) :
  l1 ≠ [] → l2 ≠ [] →
  str_join sep (l1 ++ l2) = str_join sep l1 +:+ sep +:+ str_join sep l2.
Proof.
  induction l1 as [|a l1 IH]; intros H1 H2; [done |].
  destruct l1 as [|b l1].
  - destruct l2; done.
  - change ((a :: b :: l1) ++ l2) with (a :: b :: (l1 ++ l2)).
    rewrite !str_join_cons.
    change (b :: l1 ++ l2) with ((b :: l1) ++ l2).
    rewrite IH by done.
    by rewrite !str_app_assoc.
Qed.

End Strings.

(** ** Slices *)

Section Slices.
Context {A : Type}.
Implicit Types l : list A.

(** A slice between two indices that are in range is a segment. *)
Lemma slice_in_range l (lo hi : nat) :
  lo ≤ hi → hi ≤ length l →
  slice l (Z.of_nat lo) (Z.of_nat hi) = take (hi - lo) (drop lo l).
Proof.
  intros Hlo Hhi. unfold slice, slice_index.
  destruct (Z.ltb_spec (Z.of_nat lo) 0); [lia |].
  destruct (Z.ltb_spec (Z.of_nat hi) 0); [lia |].
  rewrite !Z.min_l by lia.
  f_equal; [lia |]. f_equal; lia.
Qed.

Lemma length_slice_in_range l (lo hi : nat) :
  lo ≤ hi → hi ≤ length l →
  length (slice l (Z.of_nat lo) (Z.of_nat hi)) = hi - lo.
Proof.
  intros Hlo Hhi. rewrite slice_in_range by done.
  rewrite length_take, length_drop. lia.
Qed.

(** Between two indices that are not negative a slice is a segment,
    cut at the end of the list. *)
Lemma slice_nonneg l (a b : Z) :
  (0 ≤ a)%Z → (0 ≤ b)%Z →
  slice l a b = take (Z.to_nat b - Z.to_nat a) (drop (Z.to_nat a) l).
Proof.
  intros Ha Hb. unfold slice, slice_index.
  destruct (Z.ltb_spec a 0); [lia |].
  destruct (Z.ltb_spec b 0); [lia |].
  destruct (decide (Z.to_nat a < length l)) as [Hlt|Hge].
  - rewrite (Z.min_l a) by lia.
    destruct (decide (Z.to_nat b ≤ length l)) as [Hle|Hgt].
    + rewrite Z.min_l by lia. f_equal. lia.
    + rewrite Z.min_r by lia.
      rewrite !take_ge; [done | |]; rewrite length_drop; lia.
  - rewrite (Z.min_r a) by lia. rewrite Nat2Z.id.
    rewrite !drop_ge by lia. by rewrite !take_nil.
Qed.

End Slices.

(** ** [mark_line] *)

Section MarkLine.

Lemma mark_line_lookup (lines : list string) (n : Z) (char : string) (i : nat) :
  mark_line lines n char !! i =
    (λ line, if bool_decide (Z.of_nat i = n)
             then char +:+ " " +:+ line else "| " +:+ line) <$> lines !! i.
Proof. unfold mark_line. by rewrite list_lookup_imap. Qed.

Lemma mark_line_out_of_range (lines : list string) (n : Z) (char : string) :
  (n < 0 ∨ Z.of_nat (length lines) ≤ n)%Z →
  mark_line lines n char = (λ line, "| " +:+ line) <$> lines.
Proof.
  intros Hn. unfold mark_line. rewrite <-imap_const.
  apply imap_ext. intros i line Hi. simpl.
  apply lookup_lt_Some in Hi.
  rewrite bool_decide_eq_false_2; [done | lia].
Qed.

(** Marking keeps the separator out of the lines. *)
Lemma mark_line_pieces (sep : ascii) (lines : list string) (n : Z) :
  in_chars sep "* " = false → in_chars sep "| " = false →
  Forall (λ line, in_chars sep (line : string) = false) lines →
  Forall (λ line, in_chars sep (line : string) = false) (mark_line lines n "*").
Proof.
  intros Hstar Hbar Hall. apply Forall_lookup. intros i marked Hi.
  rewrite mark_line_lookup in Hi.
  destruct (lines !! i) as [line|] eqn:Hline; [|done].
  simpl in Hi. injection Hi as <-.
  pose proof (proj1 (Forall_lookup _ _) Hall i line Hline) as Hl. simpl in Hl.
  case_bool_decide.
  - change ("*" +:+ " " +:+ line) with ("* " +:+ line).
    by rewrite in_chars_app, Hstar, Hl.
  - by rewrite in_chars_app, Hbar, Hl.
Qed.

(** Without its two leading characters, a marked line is the line. *)
Lemma mark_line_unmark (lines : list string) (n : Z) :
  str_drop 2 <$> mark_line lines n "*" = lines.
Proof.
  apply list_eq. intros i.
  rewrite list_lookup_fmap, mark_line_lookup.
  destruct (lines !! i) as [line|]; [|done]. simpl.
  by case_bool_decide.
Qed.

End MarkLine.

(** C10. For every sequence of lines, every integer [line_number] and
    every marker, [mark_line] returns as many lines as it was given, in
    the same order, each behind the marker or a bar and a space; when
    [line_number] is negative or at least the number of lines, no line
    gets the marker: every line is prefixed with a bar and a space. The
    function is total, so nothing is raised. *)
Theorem mark_line_keeps_lines (lines : list string) (line_number : Z)
    (char : string) :
  length (mark_line lines line_number char) = length lines
  ∧ (∀ i line, lines !! i = Some line →
       ∃ marker, (marker = char ∨ marker = "|")
         ∧ mark_line lines line_number char !! i = Some (marker +:+ " " +:+ line))
  ∧ ((line_number < 0 ∨ Z.of_nat (length lines) ≤ line_number)%Z →
       mark_line lines line_number char = (λ line, "| " +:+ line) <$> lines).
Proof.
  split; [apply length_imap |]. split.
  - intros i line Hi. rewrite mark_line_lookup, Hi. simpl.
    case_bool_decide; [exists char | exists "|"]; auto.
  - apply mark_line_out_of_range.
Qed.

Lemma mark_line_keeps_lines_witness :
  mark_line ["select 1"; "from t"] 2 "*" = ["| select 1"; "| from t"]
  ∧ mark_line ["select 1"; "from t"] (-1) "*" = ["| select 1"; "| from t"].
Proof.
  split.
  - apply (proj2 (proj2 (mark_line_keeps_lines ["select 1"; "from t"] 2 "*"))).
    right. simpl. lia.
  - apply (proj2 (proj2 (mark_line_keeps_lines ["select 1"; "from t"] (-1) "*"))).
    left. lia.
Defined.

(** ** [extract_sql_context] *)

Section Context.

(** The lines the function selects, for a line number in range and a
    window that is not negative: the segment between the two clamped
    bounds. *)
Lemma extract_sql_context_lines (sql : string) (L w : Z) :
  let lines := str_split LF sql in
  let start := Z.to_nat (Z.max 0 (L - 1 - w)) in
  let stop := Z.to_nat (Z.min (Z.of_nat (length lines)) (L + w)) in
  (1 ≤ L ≤ Z.of_nat (length lines))%Z → (0 ≤ w)%Z →
  str_split LF (extract_sql_context sql L w)
  = mark_line (take (stop - start) (drop start lines)) w "*".
Proof.
  intros lines start stop HL Hw. unfold extract_sql_context.
  fold lines.
  assert (start < stop ≤ length lines) as Hrange by (unfold start, stop; lia).
  assert ((if bool_decide (L - 1 - w >= 0)%Z then (L - 1 - w)%Z else 0%Z)
          = Z.of_nat start) as ->.
  { unfold start. case_bool_decide; lia. }
  assert ((if bool_decide (L - 1 + (w + 1) ≤ Z.of_nat (length lines))%Z
           then (L - 1 + (w + 1))%Z else Z.of_nat (length lines))
          = Z.of_nat stop) as ->.
  { unfold stop. case_bool_decide; lia. }
  rewrite slice_in_range by lia.
  apply str_split_join.
  - intros Hnil. apply (f_equal length) in Hnil.
    unfold mark_line in Hnil.
    rewrite length_imap, length_take, length_drop in Hnil. simpl in Hnil. lia.
  - apply mark_line_pieces; [done | done |].
    apply Forall_take, Forall_drop, str_split_pieces.
Qed.

(** Whenever the end of the window, [L + w], is not negative, the lines
    selected are those of the window that exist. *)
Lemma extract_sql_context_clamped (sql : string) (L w : Z) :
  let lines := str_split LF sql in
  let start := Z.to_nat (Z.max 0 (L - 1 - w)) in
  let stop := Z.to_nat (Z.min (Z.of_nat (length lines)) (L + w)) in
  (0 ≤ L + w)%Z →
  extract_sql_context sql L w
  = str_join NL (mark_line (take (stop - start) (drop start lines)) w "*").
Proof.
  intros lines start stop Hend. unfold extract_sql_context. fold lines.
  rewrite slice_nonneg by (case_bool_decide; lia).
  do 3 f_equal.
  - unfold start, stop. repeat case_bool_decide; lia.
  - f_equal. unfold start. case_bool_decide; lia.
Qed.

(** When the window is not cut at the start of the text, the starred
    line is line [L], and every other line has the bar. *)
Lemma extract_sql_context_marks_line (sql : string) (L w : Z) :
  let lines := str_split LF sql in
  let snippet := str_split LF (extract_sql_context sql L w) in
  (1 ≤ L ≤ Z.of_nat (length lines))%Z → (0 ≤ w ≤ L - 1)%Z →
  ∃ line, lines !! Z.to_nat (L - 1) = Some line
          ∧ snippet !! Z.to_nat w = Some ("* " +:+ line)
          ∧ ∀ i marked, snippet !! i = Some marked → i ≠ Z.to_nat w →
                        ∃ other, marked = "| " +:+ other.
Proof.
  intros lines snippet HL Hw. unfold snippet.
  rewrite extract_sql_context_lines; [|exact HL |lia]. fold lines.
  subst lines. set (lines := str_split LF sql) in *.
  destruct (lookup_lt_is_Some_2 lines (Z.to_nat (L - 1))) as [line Hline]; [lia |].
  exists line. split; [done |]. split.
  - rewrite mark_line_lookup, lookup_take_lt by lia.
    rewrite lookup_drop.
    replace (Z.to_nat (Z.max 0 (L - 1 - w)) + Z.to_nat w) with (Z.to_nat (L - 1))
      by lia.
    rewrite Hline. simpl. by rewrite bool_decide_eq_true_2 by lia.
  - intros i marked Hi Hne. rewrite mark_line_lookup in Hi.
    destruct (take _ _ !! i) as [other|]; [|done].
    simpl in Hi. rewrite bool_decide_eq_false_2 in Hi by lia.
    injection Hi as <-. by exists other.
Qed.

End Context.

(** C3. For every SQL string, every line number [L] between 1 and the
    number of lines and every window size [w >= 0], the snippet has at
    most [2*w+1] lines, and without their markers they are the
    consecutive lines of the SQL from [max(1, L-w)] to [min(N, L+w)], in
    order. When [L] is at least [w] lines away from both ends, the
    snippet has exactly [2*w+1] lines, from line [L-w] to line [L+w],
    with line [L] in the middle. *)
Theorem extract_sql_context_window (sql : string) (L w : Z) :
  let lines := str_split LF sql in
  let N := Z.of_nat (length lines) in
  let snippet := str_split LF (extract_sql_context sql L w) in
  (1 ≤ L ≤ N)%Z → (0 ≤ w)%Z →
  ∃ start stop : nat,
    Z.of_nat start = Z.max 0 (L - 1 - w)
    ∧ Z.of_nat stop = Z.min N (L + w)
    ∧ str_drop 2 <$> snippet = take (stop - start) (drop start lines)
    ∧ (Z.of_nat (length snippet) ≤ 2 * w + 1)%Z
    ∧ ((w ≤ L - 1)%Z → (L + w ≤ N)%Z →
         Z.of_nat (length snippet) = (2 * w + 1)%Z
         ∧ Z.of_nat start = (L - 1 - w)%Z
         ∧ Z.of_nat stop = (L + w)%Z
         ∧ (str_drop 2 <$> snippet) !! Z.to_nat w = lines !! Z.to_nat (L - 1)).
Proof.
  intros lines N snippet HL Hw.
  exists (Z.to_nat (Z.max 0 (L - 1 - w))), (Z.to_nat (Z.min N (L + w))).
  unfold snippet. rewrite extract_sql_context_lines by done.
  fold lines. fold N.
  set (start := Z.to_nat (Z.max 0 (L - 1 - w))).
  set (stop := Z.to_nat (Z.min N (L + w))).
  assert (start < stop ≤ length lines) as Hrange by (unfold start, stop, N; lia).
  rewrite mark_line_unmark.
  unfold mark_line. rewrite length_imap, length_take, length_drop.
  split; [unfold start; lia |].
  split; [unfold stop; lia |].
  split; [done |].
  split; [unfold start, stop; lia |].
  intros Hlo Hhi.
  split; [unfold start, stop; lia |].
  split; [unfold start; lia |].
  split; [unfold stop; lia |].
  rewrite lookup_take_lt by (unfold start, stop; lia).
  rewrite lookup_drop. f_equal. unfold start. lia.
Qed.

Lemma extract_sql_context_window_witness :
  Z.of_nat (length (str_split LF (extract_sql_context sql5 3 1))) = (2 * 1 + 1)%Z
  ∧ (str_drop 2 <$> str_split LF (extract_sql_context sql5 3 1)) !! Z.to_nat 1
    = str_split LF sql5 !! Z.to_nat (3 - 1).
Proof.
  destruct (extract_sql_context_window sql5 3 1)
    as (start & stop & _ & _ & _ & _ & Hcentered); [simpl; lia | lia |].
  destruct Hcentered as (Hlen & _ & _ & Hmid); [lia | simpl; lia |].
  split; assumption.
Defined.

(** C1, at the first line of a text of five lines with the default
    window: the window is cut at the start of the text, the marker still
    goes to the third line of the selection, and the starred line is line
    3 of the SQL, not line 1. *)
Theorem extract_sql_context_first_line_stars_third :
  str_split LF sql5 = ["a"; "b"; "c"; "d"; "e"]
  ∧ str_split LF (extract_sql_context sql5 1 default_window_size)
    = ["| a"; "| b"; "* c"].
Proof. split; reflexivity. Qed.

(** C5, at a SQL text of one line: the offending line, the only one, is
    prefixed with the bar of a context line and no line has the star. *)
Theorem extract_sql_context_single_line_gets_bar :
  extract_sql_context "select 1" 1 default_window_size = "| select 1".
Proof. reflexivity. Qed.

(** ** The window, clamped *)

Section Clamp.

Context {A : Type} (P : nat → Prop) `{!∀ i, Decision (P i)}.

Lemma filter_indexed_all (k : nat) (l : list A) :
  (∀ i, i < length l → P (k + i)) →
  (filter (λ p, P p.1) (imap (λ i x, (k + i, x)) l)).*2 = l.
Proof.
  revert k. induction l as [|x l IH]; intros k Hall; [done |].
  rewrite imap_cons, filter_cons_True by (apply (Hall 0); simpl; lia).
  rewrite fmap_cons. simpl. f_equal.
  rewrite (imap_ext _ (λ i y, (S k + i, y))) by (intros; simpl; f_equal; lia).
  apply IH. intros i Hi. replace (S k + i) with (k + S i) by lia.
  apply Hall. simpl. lia.
Qed.

Lemma filter_indexed_none (k : nat) (l : list A) :
  (∀ i, i < length l → ¬ P (k + i)) →
  filter (λ p, P p.1) (imap (λ i x, (k + i, x)) l) = [].
Proof.
  revert k. induction l as [|x l IH]; intros k Hnone; [done |].
  rewrite imap_cons, filter_cons_False by (apply (Hnone 0); simpl; lia).
  rewrite (imap_ext _ (λ i y, (S k + i, y))) by (intros; simpl; f_equal; lia).
  apply IH. intros i Hi. replace (S k + i) with (k + S i) by lia.
  apply Hnone. simpl. lia.
Qed.

(** Of three stretches of a list, the middle one is what the filter
    keeps when it holds the indices that satisfy [P], and they alone. *)
Lemma filter_indexed_middle (l1 l2 l3 : list A) :
  (∀ i, i < length l1 → ¬ P i) →
  (∀ i, i < length l2 → P (length l1 + i)) →
  (∀ i, i < length l3 → ¬ P (length l1 + length l2 + i)) →
  (filter (λ p, P p.1) (imap pair (l1 ++ l2 ++ l3))).*2 = l2.
Proof.
  intros H1 H2 H3.
  rewrite !imap_app, !filter_app, !fmap_app.
  trans ([] ++ l2 ++ [] : list A); [|by rewrite app_nil_r].
  f_equal; [|f_equal].
  - exact (f_equal (fmap snd) (filter_indexed_none 0 l1 H1)).
  - exact (filter_indexed_all (length l1) l2 H2).
  - rewrite (imap_ext _ (λ i y, (length l1 + length l2 + i, y)))
      by (intros; simpl; f_equal; lia).
    exact (f_equal (fmap snd) (filter_indexed_none _ l3 H3)).
Qed.

End Clamp.

(** The clamped window is the segment between the two clamped bounds. *)
Lemma window_lines_segment (lines : list string) (L w : Z) :
  let start := Z.to_nat (Z.max 0 (L - 1 - w)) in
  let stop := Z.to_nat (Z.min (Z.of_nat (length lines)) (L + w)) in
  window_lines lines L w = take (stop - start) (drop start lines).
Proof.
  intros start stop.
  assert (lines = take start lines
                  ++ take (stop - start) (drop start lines)
                  ++ drop (stop - start) (drop start lines)) as Hsplit
    by (by rewrite !take_drop).
  trans (window_lines (take start lines
                       ++ take (stop - start) (drop start lines)
                       ++ drop (stop - start) (drop start lines)) L w);
    [by rewrite <-Hsplit |].
  unfold window_lines.
  pose proof (filter_indexed_middle (A := string)
                (λ i, (L - 1 - w ≤ Z.of_nat i ≤ L - 1 + w)%Z)
                (take start lines) (take (stop - start) (drop start lines))
                (drop (stop - start) (drop start lines))) as Hmiddle.
  apply Hmiddle; clear Hmiddle.
  - intros i. rewrite length_take. unfold start. lia.
  - intros i. rewrite !length_take, length_drop. unfold start, stop. lia.
  - intros i. rewrite !length_take, !length_drop. unfold start, stop. lia.
Qed.

(** C9, the claim as it stands, at line number -3 of a text of five
    lines with the default window: no line of the text is in the window,
    and yet four lines come back, one of them starred. The end of the
    window, -1, is below zero, passes the upper clamp and is read by the
    slice from the end of the list. *)
Theorem extract_sql_context_negative_line_wraps :
  window_lines (str_split LF sql5) (-3) default_window_size = []
  ∧ str_split LF (extract_sql_context sql5 (-3) default_window_size)
    = ["| a"; "| b"; "* c"; "| d"]
  ∧ extract_sql_context sql5 (-3) default_window_size
    ≠ str_join NL
        (mark_line (window_lines (str_split LF sql5) (-3) default_window_size)
           default_window_size "*").
Proof. split; [reflexivity |]. split; [reflexivity |]. discriminate. Qed.

(** C9, amended. For every SQL string, every integer [line_number] and
    every [window_size] with [line_number + window_size >= 0] (zero,
    every line number the parser can return, and line numbers past the
    last line included), the function returns, as it does for every
    integer, and the lines it selects are those of the window clamped to
    the bounds of the SQL; when there is none the snippet is the empty
    string. *)
Theorem extract_sql_context_clamps_window (sql : string) (L w : Z) :
  (0 ≤ L + w)%Z →
  extract_sql_context sql L w
  = str_join NL (mark_line (window_lines (str_split LF sql) L w) w "*")
  ∧ (window_lines (str_split LF sql) L w = [] →
     extract_sql_context sql L w = EmptyString).
Proof.
  intros Hend.
  assert (extract_sql_context sql L w
          = str_join NL (mark_line (window_lines (str_split LF sql) L w) w "*"))
    as Heq.
  { rewrite window_lines_segment. by apply extract_sql_context_clamped. }
  split; [done |]. intros Hnone. by rewrite Heq, Hnone.
Qed.

Lemma extract_sql_context_clamps_window_witness :
  extract_sql_context sql5 0 default_window_size
  = str_join NL (mark_line ["a"; "b"] default_window_size "*")
  ∧ extract_sql_context sql5 8 default_window_size = EmptyString.
Proof.
  split.
  - exact (proj1 (extract_sql_context_clamps_window sql5 0 2 ltac:(lia))).
  - exact (proj2 (extract_sql_context_clamps_window sql5 8 2 ltac:(lia)) eq_refl).
Defined.

(** ** The scan of [re.findall] *)

Section FindAll.

(** Where there is no match the scan moves one character on. *)
Lemma findall_miss (re : regex) (c : ascii) (s' : string) :
  match_here re (String c s') [] = None →
  findall re (String c s') = findall re s'.
Proof.
  intros Hnone. simp findall.
  generalize (inspect (match_here re (String c s') [])).
  intros [[[groups rest]|] Heq]; [congruence |].
  by simp findall.
Qed.

(** A match at the start of the text is the first one found. *)
Lemma findall_hit (re : regex) (s : string) (groups : list string)
    (rest : string) :
  match_here re s [] = Some (groups, rest) →
  first_item (findall re s) = Return (hd EmptyString groups).
Proof.
  intros Hsome. destruct s as [|c s']; simp findall.
  - by rewrite Hsome.
  - generalize (inspect (match_here re (String c s') [])).
    intros [[[groups' rest']|] Heq]; [|congruence].
    assert (groups' = groups) as -> by congruence.
    simp findall.
    by destruct (decide (String.length rest' < String.length (String c s')));
      simp findall.
Qed.

End FindAll.

(** ** The pattern of the line marker *)

Section Pattern.

Lemma try_lengths_Some {R : Type} (k : nat) (attempt : nat → option R) (r : R) :
  try_lengths k attempt = Some r → ∃ j, 1 ≤ j ≤ k ∧ attempt j = Some r.
Proof.
  induction k as [|k IH]; simpl; [done |].
  destruct (attempt (S k)) as [r'|] eqn:E.
  - intros [= <-]. exists (S k). split; [lia | done].
  - intros H. destruct (IH H) as (j & Hj & Hr). exists j. split; [lia | done].
Qed.

Lemma try_lengths_longest {R : Type} (k : nat) (attempt : nat → option R) (r : R) :
  1 ≤ k → attempt k = Some r → try_lengths k attempt = Some r.
Proof. destruct k as [|k]; [lia |]. intros _ H. simpl. by rewrite H. Qed.

(** A numeral followed by a character that is not a digit is the whole
    run of digits. *)
Lemma digit_run_numeral (L : string) (c : ascii) (rest : string) :
  all_digits L = true → is_digit c = false →
  digit_run (L +:+ String c rest) = String.length L.
Proof.
  induction L as [|d L IH]; intros HL Hc.
  - rewrite str_app_nil_l. simpl. by rewrite Hc.
  - simpl in HL. apply andb_true_iff in HL as [Hd HL].
    rewrite str_app_cons. simpl. by rewrite Hd, (IH HL Hc).
Qed.

Lemma str_take_digit_run (j : nat) (s : string) :
  j ≤ digit_run s →
  all_digits (str_take j s) = true ∧ String.length (str_take j s) = j.
Proof.
  revert s. induction j as [|j IH]; intros s Hj; [by destruct s |].
  destruct s as [|c s]; simpl in Hj; [lia |].
  destruct (is_digit c) eqn:Hc; [|lia].
  destruct (IH s) as [Hall Hlen]; [lia |].
  simpl. by rewrite Hc, Hall, Hlen.
Qed.

Lemma numeral_length (L : string) : numeral L → 1 ≤ String.length L.
Proof. intros [Hne _]. destruct L; [done | simpl; lia]. Qed.

(** *** [int] on a numeral *)

Lemma digit_value_table (c : ascii) :
  is_digit c = true → digit_value c = digit_of c.
Proof.
  destruct c as [[] [] [] [] [] [] [] []]; intros Hc;
    try discriminate Hc; reflexivity.
Qed.

(** The conversion is the positional value of the numeral. *)
Lemma int_from_value (s : string) (acc : Z) :
  all_digits s = true →
  int_from acc s = (acc * 10 ^ Z.of_nat (String.length s) + numeral_value s)%Z.
Proof.
  revert acc. induction s as [|c s IH]; intros acc Hs.
  - simpl. lia.
  - simpl in Hs. apply andb_true_iff in Hs as [Hc Hs].
    cbn [int_from numeral_value String.length].
    rewrite (IH _ Hs), (digit_value_table c Hc), Nat2Z.inj_succ, Z.pow_succ_r by lia.
    lia.
Qed.

Lemma all_digits_digit_run (s : string) :
  all_digits s = true → digit_run s = String.length s.
Proof.
  induction s as [|c s IH]; [done |]. simpl.
  intros Hs. apply andb_true_iff in Hs as [-> Hs]. by rewrite IH.
Qed.

(** On a numeral [int] returns the value, unless the numeral is longer
    than the interpreter converts. *)
Lemma int_numeral (L : string) :
  numeral L →
  int L = if decide (String.length L ≤ int_max_str_digits)
          then Return (numeral_value L) else Raise ValueError.
Proof.
  intros [Hne HL]. unfold int.
  rewrite (all_digits_digit_run L HL), Nat.eqb_refl.
  replace (0 <? String.length L) with true
    by (symmetry; apply Nat.ltb_lt; destruct L; [done | simpl; lia]).
  cbn [andb]. rewrite (int_from_value L 0 HL), Z.mul_0_l, Z.add_0_l.
  destruct (decide (String.length L ≤ int_max_str_digits)) as [Hle|Hgt].
  - by rewrite (proj2 (Nat.leb_le _ _) Hle).
  - by rewrite (proj2 (Nat.leb_gt _ _)) by lia.
Qed.

(** The matcher, one item of the pattern at a time. *)
Lemma match_here_lit (c : ascii) (re : regex) (s : string) (groups : list string) :
  match_here (Lit c :: re) (String c s) groups = match_here re s groups.
Proof. simpl. by rewrite Ascii.eqb_refl. Qed.

Lemma match_here_lit_inv (c : ascii) (re : regex) (s : string)
    (groups : list string) (r : list string * string) :
  match_here (Lit c :: re) s groups = Some r →
  ∃ s', s = String c s' ∧ match_here re s' groups = Some r.
Proof.
  destruct s as [|d s']; simpl; [done |].
  destruct (Ascii.eqb_spec c d) as [<-|]; [|done].
  intros H. by exists s'.
Qed.

Lemma match_here_digits (capture : bool) (re : regex) (s : string)
    (groups : list string) :
  match_here (Digits1 capture :: re) s groups
  = try_lengths (digit_run s)
      (λ k, match_here re (str_drop k s)
              (if capture then str_take k s :: groups else groups)).
Proof. reflexivity. Qed.

Lemma match_here_digits_inv (capture : bool) (re : regex) (s : string)
    (groups : list string) (r : list string * string) :
  match_here (Digits1 capture :: re) s groups = Some r →
  ∃ j, 1 ≤ j ≤ digit_run s
       ∧ match_here re (str_drop j s)
           (if capture then str_take j s :: groups else groups) = Some r.
Proof. rewrite match_here_digits. apply try_lengths_Some. Qed.

Ltac str_cons := repeat (rewrite str_app_cons || rewrite str_app_nil_l).

(** The pattern matches the marker, and captures its line number. *)
Lemma match_here_marker (L C after : string) :
  numeral L → numeral C →
  match_here BQ_LINE_NUM_PATTERN
    ("at [" +:+ L +:+ ":" +:+ C +:+ "]" +:+ after) []
  = Some ([L], after).
Proof.
  intros HL HC. unfold BQ_LINE_NUM_PATTERN. str_cons.
  rewrite !match_here_lit, match_here_digits.
  rewrite digit_run_numeral by (done || apply HL).
  apply try_lengths_longest; [by apply numeral_length |].
  rewrite str_drop_app_length, str_take_app_length.
  rewrite match_here_lit, match_here_digits.
  rewrite digit_run_numeral by (done || apply HC).
  apply try_lengths_longest; [by apply numeral_length |].
  rewrite str_drop_app_length.
  by rewrite match_here_lit.
Qed.

(** Whatever the pattern matches is a marker. *)
Lemma match_here_marker_inv (s : string) (groups : list string) (rest : string) :
  match_here BQ_LINE_NUM_PATTERN s [] = Some (groups, rest) →
  ∃ L C, numeral L ∧ numeral C ∧ groups = [L]
         ∧ s = "at [" +:+ L +:+ ":" +:+ C +:+ "]" +:+ rest.
Proof.
  unfold BQ_LINE_NUM_PATTERN. intros H.
  apply match_here_lit_inv in H as (s1 & -> & H).
  apply match_here_lit_inv in H as (s2 & -> & H).
  apply match_here_lit_inv in H as (s3 & -> & H).
  apply match_here_lit_inv in H as (s4 & -> & H).
  apply match_here_digits_inv in H as (j & Hj & H).
  apply match_here_lit_inv in H as (r & Hdrop & H).
  apply match_here_digits_inv in H as (k & Hk & H).
  apply match_here_lit_inv in H as (r' & Hdrop' & H).
  simpl in H. injection H as <- <-.
  destruct (str_take_digit_run j s4) as [HLd HLl]; [lia |].
  destruct (str_take_digit_run k r) as [HCd HCl]; [lia |].
  exists (str_take j s4), (str_take k r).
  split; [split; [intros E; rewrite E in HLl; simpl in HLl; lia | done] |].
  split; [split; [intros E; rewrite E in HCl; simpl in HCl; lia | done] |].
  split; [done |].
  str_cons. do 4 f_equal.
  rewrite <-(str_take_drop j s4) at 1. rewrite Hdrop. f_equal. f_equal.
  rewrite <-(str_take_drop k r) at 1. by rewrite Hdrop'.
Qed.

Lemma marker_at_start (msg L : string) :
  marker_at msg 0 L →
  ∃ after, match_here BQ_LINE_NUM_PATTERN msg [] = Some ([L], after).
Proof.
  intros (before & C & after & Hlen & HL & HC & ->).
  destruct before; [|done]. rewrite str_app_nil_l.
  exists after. by apply match_here_marker.
Qed.

Lemma marker_at_next (c : ascii) (msg L : string) (i : nat) :
  marker_at (String c msg) (S i) L ↔ marker_at msg i L.
Proof.
  split.
  - intros (before & C & after & Hlen & HL & HC & Hmsg).
    destruct before as [|c' before]; [done |].
    rewrite str_app_cons in Hmsg. injection Hmsg as -> ->.
    exists before, C, after. simpl in Hlen. split; [lia | done].
  - intros (before & C & after & Hlen & HL & HC & ->).
    exists (String c before), C, after. simpl. split; [lia | done].
Qed.

Lemma marker_at_empty (i : nat) (L : string) : ¬ marker_at EmptyString i L.
Proof.
  intros (before & C & after & _ & _ & _ & Hmsg).
  apply (f_equal String.length) in Hmsg.
  rewrite !str_length_app in Hmsg. simpl in Hmsg. lia.
Qed.

(** The first group [findall] returns is the line number of the
    leftmost marker. *)
Lemma findall_first_marker (msg : string) :
  (∃ i L, marker_at msg i L) →
  ∃ i L, marker_at msg i L
         ∧ (∀ j L', marker_at msg j L' → i ≤ j)
         ∧ first_item (findall BQ_LINE_NUM_PATTERN msg) = Return L.
Proof.
  induction msg as [|c msg IH]; intros (i & L & Hm).
  - by apply marker_at_empty in Hm.
  - destruct (match_here BQ_LINE_NUM_PATTERN (String c msg) [])
      as [[groups rest]|] eqn:Hmatch.
    + destruct (match_here_marker_inv _ _ _ Hmatch) as (L0 & C0 & HL0 & HC0 & -> & Hs).
      exists 0, L0. split; [by exists EmptyString, C0, rest |].
      split; [intros; lia |].
      by rewrite (findall_hit _ _ _ _ Hmatch).
    + assert (∀ j L', marker_at (String c msg) j L' → ∃ j', j = S j') as Hpos.
      { intros [|j'] L' Hj; [|by exists j'].
        apply marker_at_start in Hj as [after Hj]. congruence. }
      destruct (Hpos i L Hm) as [i' ->].
      apply marker_at_next in Hm.
      destruct IH as (i0 & L0 & Hm0 & Hleft & Hfirst); [by exists i', L |].
      exists (S i0), L0. split; [by apply marker_at_next |]. split.
      * intros j L' Hj. destruct (Hpos j L' Hj) as [j' ->].
        apply marker_at_next in Hj. specialize (Hleft j' L' Hj). lia.
      * by rewrite findall_miss.
Qed.

(** The call, once the first group is known. *)
Lemma parse_error_line_number_group (msg L : string) :
  first_item (findall BQ_LINE_NUM_PATTERN msg) = Return L → numeral L →
  parse_error_line_number msg
  = if decide (String.length L ≤ int_max_str_digits)
    then Return (numeral_value L) else Raise ValueError.
Proof.
  intros Hfirst HL. unfold parse_error_line_number.
  rewrite Hfirst, (int_numeral L HL). by case_decide.
Qed.

(** Without a marker [findall] finds nothing. *)
Lemma findall_no_marker (msg : string) :
  (∀ i L, ¬ marker_at msg i L) → findall BQ_LINE_NUM_PATTERN msg = [].
Proof.
  induction msg as [|c msg IH]; intros Hnone; [done |].
  destruct (match_here BQ_LINE_NUM_PATTERN (String c msg) [])
    as [[groups rest]|] eqn:Hmatch.
  - destruct (match_here_marker_inv _ _ _ Hmatch) as (L0 & C0 & HL0 & HC0 & -> & Hs).
    destruct (Hnone 0 L0). by exists EmptyString, C0, rest.
  - rewrite findall_miss by done. apply IH.
    intros i L Hm. apply (Hnone (S i) L). by apply marker_at_next.
Qed.

(** The handler of [IndexError] binds nothing: with no marker in the
    message, the [return] reads a local that was never bound. *)
Lemma parse_error_line_number_no_marker (msg : string) :
  (∀ i L, ¬ marker_at msg i L) →
  parse_error_line_number msg = Raise (UnboundLocalError "line_number").
Proof.
  intros Hnone. unfold parse_error_line_number.
  by rewrite findall_no_marker.
Qed.

End Pattern.

(** C4, the claim as it stands, at a message whose marker has a line
    numeral of 4301 digits: [int] does not convert it, and the call
    raises [ValueError] instead of returning its value. *)
Theorem parse_error_line_number_long_numeral :
  marker_at long_message 0 long_numeral
  ∧ parse_error_line_number long_message = Raise ValueError
  ∧ ¬ ∃ n, parse_error_line_number long_message = Return n.
Proof.
  assert (numeral long_numeral) as HL by (split; [done | by vm_compute]).
  assert (numeral "1") as HC by done.
  assert (marker_at long_message 0 long_numeral) as Hm
    by (by exists EmptyString, "1", EmptyString).
  assert (parse_error_line_number long_message = Raise ValueError) as Hraise.
  { destruct (marker_at_start _ _ Hm) as [after Hmatch].
    rewrite (parse_error_line_number_group long_message long_numeral);
      [|by rewrite (findall_hit _ _ _ _ Hmatch) |done].
    destruct (decide (String.length long_numeral ≤ int_max_str_digits)) as [Hle|];
      [|done].
    vm_compute in Hle. lia. }
  split; [done |]. split; [done |].
  intros [n Hn]. congruence.
Qed.

(** C4, amended. For every error message in which a marker [at [L:C]]
    occurs, [L] and [C] being numerals, [parse_error_line_number]
    returns the integer value of the [L] of the leftmost marker when
    this [L] has at most 4300 digits, and raises [ValueError] when it
    has more. *)
Theorem parse_error_line_number_first_marker (error_message : string) :
  (∃ i L, marker_at error_message i L) →
  ∃ i L, marker_at error_message i L
         ∧ (∀ j L', marker_at error_message j L' → i ≤ j)
         ∧ parse_error_line_number error_message
           = if decide (String.length L ≤ int_max_str_digits)
             then Return (numeral_value L) else Raise ValueError.
Proof.
  intros Hsome.
  destruct (findall_first_marker error_message Hsome) as (i & L & Hm & Hleft & Hfirst).
  exists i, L. split; [done |]. split; [done |].
  apply parse_error_line_number_group; [done |].
  by destruct Hm as (_ & _ & _ & _ & HL & _).
Qed.

Lemma parse_error_line_number_first_marker_witness :
  ∃ i L, marker_at "Unrecognized name: x at [12:3] or at [4:5]" i L
         ∧ (∀ j L', marker_at "Unrecognized name: x at [12:3] or at [4:5]" j L' → i ≤ j)
         ∧ numeral_value L = 12%Z
         ∧ parse_error_line_number "Unrecognized name: x at [12:3] or at [4:5]"
           = Return 12%Z.
Proof.
  destruct (parse_error_line_number_first_marker
              "Unrecognized name: x at [12:3] or at [4:5]")
    as (i & L & Hm & Hleft & Hret).
  { exists 21, "12". exists "Unrecognized name: x ", "3", " or at [4:5]".
    repeat split; done. }
  exists i, L. split; [exact Hm |]. split; [exact Hleft |].
  split; [|reflexivity].
  assert (parse_error_line_number "Unrecognized name: x at [12:3] or at [4:5]"
          = Return 12%Z) as Hrun by reflexivity.
  rewrite Hrun in Hret.
  destruct (decide (String.length L ≤ int_max_str_digits)); [|discriminate Hret].
  injection Hret as Hret. symmetry. exact Hret.
Defined.

(** C2, at a message without a marker: the call does not return; it
    raises [UnboundLocalError]. *)
Theorem parse_error_line_number_unbound_local :
  (∀ i L, ¬ marker_at "Table not found: users" i L)
  ∧ parse_error_line_number "Table not found: users"
    = Raise (UnboundLocalError "line_number").
Proof.
  assert (parse_error_line_number "Table not found: users"
          = Raise (UnboundLocalError "line_number")) as Hraise by reflexivity.
  split; [|done].
  intros i L Hm.
  destruct (findall_first_marker "Table not found: users")
    as (i0 & L0 & Hm0 & _ & Hfirst); [by exists i, L |].
  rewrite (parse_error_line_number_group _ L0 Hfirst) in Hraise
    by (by destruct Hm0 as (_ & _ & _ & _ & HL & _)).
  by case_decide.
Qed.

(** ** [strip] *)

Section Strip.

Lemma in_chars_slash (c : ascii) : in_chars c "/" = Ascii.eqb c "/".
Proof. simpl. apply orb_false_r. Qed.

Lemma str_lstrip_slash (s : string) :
  ∃ a, s = str_mul "/" a +:+ str_lstrip "/" s
       ∧ ∀ t, str_lstrip "/" s ≠ String "/" t.
Proof.
  induction s as [|c s (a & Hs & Hstart)].
  - by exists 0.
  - cbn [str_lstrip]. rewrite in_chars_slash.
    destruct (Ascii.eqb_spec c "/") as [->|Hc].
    + exists (S a). split; [|done].
      cbn [str_mul]. by rewrite str_app_cons, <-Hs.
    + exists 0. split; [done |]. intros t [= ? _]. done.
Qed.

Lemma str_rstrip_start (chars s : string) (c : ascii) (t : string) :
  str_rstrip chars s = String c t → ∃ t', s = String c t'.
Proof.
  destruct s as [|d s]; simpl; [done |].
  destruct (str_rstrip chars s); [destruct (in_chars d chars) |];
    intros [= -> _]; eauto.
Qed.

Lemma str_not_end_cons (c d : ascii) (k t : string) :
  String c (String d k) = t +:+ "/" →
  ∃ t', t = String c t' ∧ String d k = t' +:+ "/".
Proof.
  destruct t as [|c' t']; [done |].
  rewrite str_app_cons. intros [= -> Hk]. eauto.
Qed.

Lemma str_rstrip_slash (s : string) :
  ∃ b, s = str_rstrip "/" s +:+ str_mul "/" b
       ∧ ∀ t, str_rstrip "/" s ≠ t +:+ "/".
Proof.
  induction s as [|c s (b & Hs & Hend)].
  - exists 0. split; [done |]. intros [|? ?]; done.
  - cbn [str_rstrip]. destruct (str_rstrip "/" s) as [|d kept].
    + rewrite str_app_nil_l in Hs. rewrite in_chars_slash.
      destruct (Ascii.eqb_spec c "/") as [->|Hc].
      * exists (S b). split; [by rewrite str_app_nil_l, Hs |].
        intros [|? ?]; done.
      * exists b. split; [by rewrite str_app_cons, str_app_nil_l, <-Hs |].
        intros [|c' t'] E; [by injection E |].
        rewrite str_app_cons in E. injection E as _ E. by destruct t'.
    + exists b. split; [by rewrite str_app_cons, <-Hs |].
      intros t E. apply str_not_end_cons in E as (t' & _ & E).
      by apply (Hend t').
Qed.

(** [strip("/")] takes the slashes off both ends, and nothing else. *)
Lemma str_strip_slash (s : string) :
  ∃ a b, s = str_mul "/" a +:+ str_strip "/" s +:+ str_mul "/" b
         ∧ (∀ t, str_strip "/" s ≠ String "/" t)
         ∧ (∀ t, str_strip "/" s ≠ t +:+ "/").
Proof.
  destruct (str_lstrip_slash s) as (a & Hl & Hstart).
  destruct (str_rstrip_slash (str_lstrip "/" s)) as (b & Hr & Hend).
  exists a, b. unfold str_strip. split; [by rewrite <-Hr |].
  split; [|done].
  intros t E. apply str_rstrip_start in E as [t' E]. by apply (Hstart t').
Qed.

End Strip.

(** C8. [compose_url] raises [TypeError] exactly when [path] is not a
    list. For a list it returns [base_url] and the elements, each
    stringified and without its leading and trailing slashes, joined by
    single slashes; [strip] removes slashes at the two ends only, and an
    element that is empty once stripped leaves two slashes in a row. *)
Theorem compose_url_joins_stripped_parts {A : Type} `{Str A}
    (base_url : string) (path : path_arg A) :
  (compose_url base_url path = Raise (TypeError "URL path must be a list")
   ↔ ∃ value, path = PathOther value)
  ∧ (∀ items : list A, path = PathList items →
       compose_url base_url path
       = Return (str_join "/" (str_strip "/" <$> base_url :: (str <$> items))))
  ∧ (∀ s : string, ∃ a b,
       s = str_mul "/" a +:+ str_strip "/" s +:+ str_mul "/" b
       ∧ (∀ t, str_strip "/" s ≠ String "/" t)
       ∧ (∀ t, str_strip "/" s ≠ t +:+ "/"))
  ∧ (∀ (before : list A) (element : A) (after : list A),
       path = PathList (before ++ element :: after) →
       str_strip "/" (str element) = EmptyString → after ≠ [] →
       compose_url base_url path
       = Return (str_join "/" (str_strip "/" <$> base_url :: (str <$> before))
                 +:+ "//"
                 +:+ str_join "/" (str_strip "/" <$> (str <$> after)))).
Proof.
  assert (∀ items : list A, compose_url base_url (PathList items)
          = Return (str_join "/" (str_strip "/" <$> base_url :: (str <$> items))))
    as Hlist.
  { intros items. unfold compose_url. do 2 f_equal.
    rewrite fmap_app, <-list_fmap_compose. simpl. f_equal.
    rewrite <-list_fmap_compose. done. }
  split; [|split; [|split]].
  - split.
    + destruct path as [items|value]; [by rewrite Hlist | eauto].
    + by intros [value ->].
  - by intros items ->.
  - apply str_strip_slash.
  - intros before element after -> Hempty Hafter. rewrite Hlist.
    rewrite !fmap_cons, !fmap_app, !fmap_cons, Hempty.
    rewrite app_comm_cons, (str_join_app _ _ ("" :: _)) by done.
    destruct after as [|next after]; [done |].
    by rewrite fmap_cons, fmap_cons, str_join_cons, str_app_nil_l.
Qed.

Lemma compose_url_joins_stripped_parts_witness :
  compose_url "https://looker.example/" (PathList ["/api/"; "/"; "3.1/login"])
  = Return ("https://looker.example/api" +:+ "//" +:+ "3.1/login").
Proof.
  exact (proj2 (proj2 (proj2 (compose_url_joins_stripped_parts
           "https://looker.example/" (PathList ["/api/"; "/"; "3.1/login"]))))
           ["/api/"] "/" ["3.1/login"] eq_refl eq_refl
           (λ E, eq_ind ["3.1/login"] (λ l, match l with [] => False | _ => True end)
                   I [] E)).
Defined.

(** ** The Bisector *)

(** C6. For every query of [n > 1] fields without repetition, [divide]
    returns two queries whose fields, one after the other, are the
    fields of the query in their order, with no field in both; the first
    has [ceil(n/2)] fields and the second [floor(n/2)]; both are pending
    queries on the same explore. *)
Theorem divide_halves (q : Query) :
  NoDup (fields q) → 1 < length (fields q) →
  ∃ first_half second_half,
    divide q = Some (first_half, second_half)
    ∧ fields first_half ++ fields second_half = fields q
    ∧ (∀ f, f ∈ fields first_half → f ∉ fields second_half)
    ∧ length (fields q) ≤ 2 * length (fields first_half) < length (fields q) + 2
    ∧ 2 * length (fields second_half) ≤ length (fields q)
        < 2 * length (fields second_half) + 2
    ∧ length (fields second_half) = length (fields q) / 2
    ∧ explore first_half = explore q ∧ explore second_half = explore q
    ∧ query_status first_half = Pending ∧ query_status second_half = Pending.
Proof.
  intros Hnodup Hn. unfold divide.
  destruct (decide (1 < length (fields q))) as [_|]; [|done].
  eexists _, _. split; [done |].
  unfold child. cbn [fields explore query_status].
  split; [apply take_drop |].
  split.
  { rewrite <-(take_drop (ceil_half (length (fields q))) (fields q)) in Hnodup.
    apply NoDup_app in Hnodup as (_ & Hdisjoint & _). exact Hdisjoint. }
  rewrite length_take, length_drop. unfold ceil_half.
  pose proof (Nat.div_mod_eq (length (fields q) + 1) 2) as H1.
  pose proof (Nat.mod_upper_bound (length (fields q) + 1) 2 ltac:(lia)) as H2.
  pose proof (Nat.div_mod_eq (length (fields q)) 2) as H3.
  pose proof (Nat.mod_upper_bound (length (fields q)) 2 ltac:(lia)) as H4.
  repeat split; lia.
Qed.

Lemma divide_halves_witness :
  ∃ first_half second_half,
    divide (mkQuery "users" ["a"; "b"; "c"] None Dispatched None)
    = Some (first_half, second_half)
    ∧ fields first_half = ["a"; "b"] ∧ fields second_half = ["c"].
Proof.
  destruct (divide_halves (mkQuery "users" ["a"; "b"; "c"] None Dispatched None))
    as (first_half & second_half & Hdiv & _); [by apply (bool_decide_unpack _) | simpl; lia |].
  exists first_half, second_half. split; [done |].
  vm_compute in Hdiv. injection Hdiv as <- <-. done.
Defined.

(** ** The ConcurrencyGate *)

Section Gate.

(** Replacing one item of a list moves the count of the items that
    satisfy [P] by what the two items contribute. *)
Lemma count_insert {A : Type} (P : A → Prop) `{!∀ x, Decision (P x)}
    (l : list A) (i : nat) (x y : A) :
  l !! i = Some x →
  length (filter P (<[i := y]> l)) + (if decide (P x) then 1 else 0)
  = length (filter P l) + (if decide (P y) then 1 else 0).
Proof.
  intros Hi. pose proof (lookup_lt_Some _ _ _ Hi) as Hlt.
  rewrite insert_take_drop by done.
  rewrite <-(take_drop_middle l i x Hi) at 3.
  rewrite !filter_app, !filter_cons, !length_app.
  destruct (decide (P x)), (decide (P y)); simpl; lia.
Qed.

Lemma holding_insert (s : pipeline) (w : nat) (d d' : dispatcher) :
  dispatchers s !! w = Some d →
  length (filter (λ d, holds_permit d = true) (<[w := d']> (dispatchers s)))
  + (if holds_permit d then 1 else 0)
  = holding s + (if holds_permit d' then 1 else 0).
Proof.
  intros Hw. unfold holding.
  pose proof (count_insert (λ d, holds_permit d = true) _ w d d' Hw) as Hc.
  destruct (decide (holds_permit d = true)) as [->|Hd],
           (decide (holds_permit d' = true)) as [->|Hd'];
    try (apply not_true_is_false in Hd; rewrite Hd);
    try (apply not_true_is_false in Hd'; rewrite Hd'); lia.
Qed.

Lemma registry_size_delete (registry : gmap string nat) (task : string) (i : nat) :
  registry !! task = Some i → size registry = S (size (delete task registry)).
Proof.
  intros Htask.
  rewrite <-(insert_delete_id registry task i Htask) at 1.
  rewrite map_size_insert_None; [done | apply lookup_delete_eq].
Qed.

(** A table whose dispatched queries all have a task in the registry
    has no more of them than the registry has tasks. *)
Lemma dispatched_le_registry (qs : list Query) (registry : gmap string nat) :
  (∀ i q, qs !! i = Some q → query_status q = Dispatched →
          ∃ task, registry !! task = Some i) →
  length (filter (λ q, query_status q = Dispatched) qs) ≤ size registry.
Proof.
  revert registry. induction qs as [|q qs IH] using rev_ind; intros registry Hreg.
  - simpl. lia.
  - rewrite filter_app, length_app, filter_cons, filter_nil.
    destruct (decide (query_status q = Dispatched)) as [Hq|Hq]; simpl.
    + destruct (Hreg (length qs) q) as [task Htask]; [|done |].
      { by rewrite lookup_app_r, Nat.sub_diag. }
      rewrite (registry_size_delete _ _ _ Htask).
      specialize (IH (delete task registry)).
      enough (length (filter (λ q, query_status q = Dispatched) qs)
              ≤ size (delete task registry)) by lia.
      apply IH. intros i q' Hi Hq'.
      destruct (Hreg i q') as [task' Htask']; [|done |].
      { by rewrite lookup_app_l by (by eapply lookup_lt_Some). }
      exists task'. rewrite lookup_delete_ne; [done |].
      intros ->. apply lookup_lt_Some in Hi.
      rewrite Htask in Htask'. injection Htask' as Heq. lia.
    + specialize (IH registry).
      enough (length (filter (λ q, query_status q = Dispatched) qs)
              ≤ size registry) by lia.
      apply IH. intros i q' Hi Hq'.
      apply (Hreg i q'); [|done].
      by rewrite lookup_app_l by (by eapply lookup_lt_Some).
Qed.

(** Reading the query table after one of its three updates. *)
Lemma set_status_lookup (i j : nat) (st : status) (qs : list Query) (q : Query) :
  set_status i st qs !! j = Some q →
  (j = i ∧ query_status q = st) ∨ (j ≠ i ∧ qs !! j = Some q).
Proof.
  unfold set_status. destruct (qs !! i) as [qi|] eqn:Hi.
  - destruct (decide (j = i)) as [->|Hne].
    + rewrite list_lookup_insert_eq by (by eapply lookup_lt_Some).
      intros [= <-]. by left.
    + rewrite list_lookup_insert_ne by done. by right.
  - intros Hj. right. split; [|done]. intros ->. congruence.
Qed.

Lemma set_errored_lookup (i j : nat) (message : string) (qs : list Query)
    (q : Query) :
  set_errored i message qs !! j = Some q →
  (j = i ∧ query_status q = CompletedErrored) ∨ (j ≠ i ∧ qs !! j = Some q).
Proof.
  unfold set_errored. destruct (qs !! i) as [qi|] eqn:Hi.
  - destruct (decide (j = i)) as [->|Hne].
    + rewrite list_lookup_insert_eq by (by eapply lookup_lt_Some).
      intros [= <-]. by left.
    + rewrite list_lookup_insert_ne by done. by right.
  - intros Hj. right. split; [|done]. intros ->. congruence.
Qed.

Lemma set_dispatched_lookup (i j : nat) (task : string) (qs : list Query)
    (q : Query) :
  set_dispatched i task qs !! j = Some q → j = i ∨ qs !! j = Some q.
Proof.
  unfold set_dispatched. destruct (qs !! i) as [qi|] eqn:Hi; [|by right].
  destruct (decide (j = i)) as [->|Hne]; [by left |].
  rewrite list_lookup_insert_ne by done. by right.
Qed.

(** After the Collector has handled a content error of query [i], a
    dispatched query is another one that was there before. *)
Lemma content_error_lookup (fail_fast : bool) (i j : nat) (message : string)
    (s : pipeline) (q : Query) :
  is_Some (queries s !! i) →
  (content_error fail_fast i message s).1 !! j = Some q →
  query_status q = Dispatched →
  j ≠ i ∧ queries s !! j = Some q.
Proof.
  intros [qi Hi] Hj Hq. unfold content_error in Hj. rewrite Hi in Hj.
  destruct (if fail_fast then None else divide qi) as [[first_half second_half]|] eqn:Hdiv.
  - simpl in Hj.
    assert (query_status first_half = Pending ∧ query_status second_half = Pending)
      as [Hfirst Hsecond].
    { destruct fail_fast; [done |]. unfold divide in Hdiv.
      destruct (decide (1 < length (fields qi))); [|done].
      by injection Hdiv as <- <-. }
    apply lookup_app_Some in Hj as [Hj|[_ Hj]].
    + apply set_status_lookup in Hj as [[_ Hst]|Hj]; [congruence | done].
    + destruct (j - length (set_status i Divided (queries s))) as [|[|k]];
        simpl in Hj; [| |done]; injection Hj as <-; congruence.
  - simpl in Hj.
    apply set_errored_lookup in Hj as [[_ Hst]|Hj]; [congruence | done].
Qed.

Lemma registry_delete_other (registry : gmap string nat) (task : string)
    (i j : nat) :
  registry !! task = Some i → j ≠ i →
  (∃ task', registry !! task' = Some j) →
  ∃ task', delete task registry !! task' = Some j.
Proof.
  intros Htask Hne [task' Htask']. exists task'.
  rewrite lookup_delete_ne; [done |]. intros ->. congruence.
Qed.

Lemma gate_invariant_seed (gate_size : nat) (roots : list (string * list string))
    (workers : nat) :
  gate_invariant gate_size (seed gate_size roots workers).
Proof.
  split.
  - unfold holding. simpl. rewrite map_size_empty.
    assert (filter (λ d, holds_permit d = true) (replicate workers Waiting) = [])
      as ->; [|simpl; lia].
    induction workers as [|n IH]; [done |]. simpl.
    rewrite filter_cons. by destruct (decide (holds_permit Waiting = true)).
  - intros i q Hi Hq. simpl in Hi.
    rewrite list_lookup_fmap in Hi.
    destruct (roots !! i); [|done]. injection Hi as <-. done.
Qed.

(** Every action keeps the accounting. *)
Lemma gate_invariant_step (gate_size : nat) (fail_fast : bool) (ev : event)
    (s s' : pipeline) :
  gate_invariant gate_size s → step fail_fast ev s = Some s' →
  gate_invariant gate_size s'.
Proof.
  intros [Hsum Hreg] Hstep. unfold step in Hstep.
  destruct (failed s); [done |].
  destruct ev as [w|w|w response|task answer| | |].
  - (* Dequeue *)
    destruct (dispatchers s !! w) as [[| | |]|] eqn:Hw; try done.
    destruct (work_queue s) as [|[q|] rest]; [done | |];
      injection Hstep as <-; (split; [|done]).
    + pose proof (holding_insert s w Waiting (Acquiring q) Hw) as Hh.
      unfold holding at 1. simpl in *. lia.
    + pose proof (holding_insert s w Waiting Exited Hw) as Hh.
      unfold holding at 1. simpl in *. lia.
  - (* Acquire *)
    destruct (dispatchers s !! w) as [[|q|q|]|] eqn:Hw; try done.
    destruct (permits s) as [|free] eqn:Hp; [done |].
    injection Hstep as <-. split; [|done].
    pose proof (holding_insert s w (Acquiring q) (Creating q) Hw) as Hh.
    unfold holding at 1. simpl in *. lia.
  - (* Create *)
    destruct (dispatchers s !! w) as [[|q|q|]|] eqn:Hw; try done.
    destruct response as [task|]; [|by injection Hstep as <-].
    destruct (decide (task_registry s !! task = None)) as [Hfresh|]; [|done].
    injection Hstep as <-. split.
    + pose proof (holding_insert s w (Creating q) Waiting Hw) as Hh.
      unfold holding at 1. simpl in *.
      rewrite map_size_insert_None by done. lia.
    + intros i q' Hi Hq'. simpl in *.
      apply set_dispatched_lookup in Hi as [->|Hi].
      * exists task. apply lookup_insert_eq.
      * destruct (Hreg i q' Hi Hq') as [task' Htask'].
        exists task'. rewrite lookup_insert_ne; [done |].
        intros ->. congruence.
  - (* Poll *)
    destruct (decide (task ∈ running_set s)) as [_|]; [|done].
    destruct (task_registry s !! task) as [i|] eqn:Htask; [|done].
    destruct answer as [| |message].
    + by injection Hstep as <-.
    + injection Hstep as <-. split.
      * unfold holding in *. simpl in *.
        rewrite (registry_size_delete _ _ _ Htask) in Hsum. lia.
      * intros j q Hj Hq. simpl in *.
        apply set_status_lookup in Hj as [[_ Hst]|[Hne Hj]]; [congruence |].
        eapply registry_delete_other; eauto.
    + destruct (content_error fail_fast i message s) as [qs wq] eqn:Hce.
      injection Hstep as <-. split.
      * unfold holding in *. simpl in *.
        rewrite (registry_size_delete _ _ _ Htask) in Hsum. lia.
      * intros j q Hj Hq. simpl in *.
        destruct (queries s !! i) as [qi|] eqn:Hi.
        -- pose proof (content_error_lookup fail_fast i j message s q) as Hl.
           rewrite Hce in Hl. destruct Hl as [Hne Hl]; [by eexists | done | done |].
           eapply registry_delete_other; eauto.
        -- unfold content_error in Hce. rewrite Hi in Hce.
           injection Hce as <- <-.
           eapply registry_delete_other; eauto. intros ->. congruence.
  - (* PollFails *)
    by injection Hstep as <-.
  - (* Release *)
    destruct (releasing s) as [|owed] eqn:Hr; [done |].
    injection Hstep as <-. split; [|done].
    unfold holding in *. simpl in *. lia.
  - (* SendShutdown *)
    by injection Hstep as <-.
Qed.

Lemma gate_invariant_run (gate_size : nat) (fail_fast : bool)
    (trace : list event) (s s' : pipeline) :
  gate_invariant gate_size s → run fail_fast trace s = Some s' →
  gate_invariant gate_size s'.
Proof.
  revert s. induction trace as [|ev trace IH]; intros s Hinv Hrun; simpl in Hrun.
  - by injection Hrun as <-.
  - destruct (step fail_fast ev s) as [s1|] eqn:Hstep; [|done].
    eapply IH; [|done]. by eapply gate_invariant_step.
Qed.

End Gate.

(** C7. In every state a run reaches from the Orchestrator's seeding,
    after any sequence of actions of the Dispatchers, the Collector and
    the Orchestrator, the number of queries in Dispatched status is at
    most the size of the ConcurrencyGate. *)
Theorem dispatched_within_gate (gate_size : nat) (fail_fast : bool)
    (roots : list (string * list string)) (workers : nat)
    (trace : list event) (s : pipeline) :
  run fail_fast trace (seed gate_size roots workers) = Some s →
  dispatched_count s ≤ gate_size.
Proof.
  intros Hrun.
  destruct (gate_invariant_run gate_size fail_fast trace _ s
              (gate_invariant_seed gate_size roots workers) Hrun) as [Hsum Hreg].
  pose proof (dispatched_le_registry _ _ Hreg) as Hle.
  unfold dispatched_count. lia.
Qed.

Lemma dispatched_within_gate_witness :
  run false bisect_trace bisect_seed = Some bisect_state
  ∧ dispatched_count bisect_state ≤ 1.
Proof.
  assert (run false bisect_trace bisect_seed = Some bisect_state) as Hrun
    by (vm_compute; reflexivity).
  split; [exact Hrun |].
  exact (dispatched_within_gate 1 false [("users", ["a"; "b"; "c"])] 2
           bisect_trace bisect_state Hrun).
Defined.

(** * Further properties of [fonz/utils.py] *)

(** ** [mark_line], line by line *)

(** X1. When [line_number] is the index of a line, that line and no
    other gets the marker: the lines before it and the lines after it
    get the bar. *)
Theorem mark_line_marks_one (lines : list string) (n : nat) (char line : string) :
  lines !! n = Some line →
  mark_line lines (Z.of_nat n) char
  = ((λ l, "| " +:+ l) <$> take n lines)
    ++ (char +:+ " " +:+ line) :: ((λ l, "| " +:+ l) <$> drop (S n) lines).
Proof.
  intros Hn. pose proof (lookup_lt_Some _ _ _ Hn) as Hlt.
  rewrite <-(take_drop_middle lines n line Hn) at 1.
  unfold mark_line. rewrite imap_app, imap_cons, length_take.
  replace (n `min` length lines) with n by lia.
  f_equal; [|f_equal].
  - rewrite <-imap_const. apply imap_ext. intros i l Hi. simpl.
    apply lookup_lt_Some in Hi. rewrite length_take in Hi.
    by rewrite bool_decide_eq_false_2 by lia.
  - by rewrite bool_decide_eq_true_2 by lia.
  - rewrite <-imap_const. apply imap_ext. intros i l Hi. simpl.
    by rewrite bool_decide_eq_false_2 by lia.
Qed.

Lemma mark_line_marks_one_witness :
  mark_line ["select *"; "from t"; "where"] (Z.of_nat 1) "*"
  = ["| select *"; "* from t"; "| where"].
Proof.
  exact (mark_line_marks_one ["select *"; "from t"; "where"] 1 "*" "from t" eq_refl).
Defined.

(** X2. Marking a concatenation is marking its two parts, with the line
    number counted from the start of each part. *)
Theorem mark_line_app (l1 l2 : list string) (line_number : Z) (char : string) :
  mark_line (l1 ++ l2) line_number char
  = mark_line l1 line_number char
    ++ mark_line l2 (line_number - Z.of_nat (length l1)) char.
Proof.
  unfold mark_line. rewrite imap_app. f_equal.
  apply imap_ext. intros i l _. simpl.
  destruct (decide (Z.of_nat (length l1 + i) = line_number)).
  - by rewrite !bool_decide_eq_true_2 by lia.
  - by rewrite !bool_decide_eq_false_2 by lia.
Qed.

(** ** [extract_sql_context], any line number *)

Section Window.

Lemma mark_line_nil (n : Z) (char : string) : mark_line [] n char = [].
Proof. reflexivity. Qed.

(** When the end of the window is negative it passes the upper clamp
    and the slice counts it from the end of the list. *)
Lemma extract_sql_context_negative_end (sql : string) (L w : Z) :
  let lines := str_split LF sql in
  (0 ≤ w)%Z → (L + w < 0)%Z →
  extract_sql_context sql L w
  = str_join NL
      (mark_line (take (Z.to_nat (Z.of_nat (length lines) + (L + w))) lines) w "*").
Proof.
  intros lines Hw Hend. unfold extract_sql_context. fold lines.
  rewrite bool_decide_eq_false_2 by lia.
  rewrite bool_decide_eq_true_2 by lia.
  unfold slice, slice_index.
  destruct (Z.ltb_spec 0 0); [lia |].
  destruct (Z.ltb_spec (L - 1 + (w + 1)) 0); [|lia].
  rewrite Z.min_l by lia. simpl (Z.to_nat 0). rewrite drop_0.
  do 3 f_equal. lia.
Qed.

End Window.

(** X3. Whenever [window_size >= 0] and [line_number + window_size >= 0]
    (line number 0 and line numbers past the end included), the lines
    selected are lines [max(1, L-w)] to [min(N, L+w)] of the SQL, those
    of the window that exist: at most [2*w+1] of them, possibly none. *)
Theorem extract_sql_context_selects_window (sql : string) (L w : Z) :
  let lines := str_split LF sql in
  let start := Z.to_nat (Z.max 0 (L - 1 - w)) in
  let stop := Z.to_nat (Z.min (Z.of_nat (length lines)) (L + w)) in
  let selected := take (stop - start) (drop start lines) in
  (0 ≤ w)%Z → (0 ≤ L + w)%Z →
  extract_sql_context sql L w = str_join NL (mark_line selected w "*")
  ∧ length selected = stop - start
  ∧ (Z.of_nat (length selected) ≤ 2 * w + 1)%Z
  ∧ ∀ i, i < stop - start → selected !! i = lines !! (start + i).
Proof.
  intros lines start stop selected Hw Hend.
  split; [by apply extract_sql_context_clamped |].
  assert (length selected = stop - start) as Hlen.
  { unfold selected. rewrite length_take, length_drop. unfold start, stop. lia. }
  split; [done |]. split; [rewrite Hlen; unfold start, stop; lia |].
  intros i Hi. unfold selected.
  by rewrite lookup_take_lt, lookup_drop by done.
Qed.

Lemma extract_sql_context_selects_window_witness :
  extract_sql_context sql5 0 1 = str_join NL (mark_line ["a"] 1 "*").
Proof.
  exact (proj1 (extract_sql_context_selects_window sql5 0 1
                  ltac:(lia) ltac:(lia))).
Defined.

(** X4. With [window_size >= 0], a line number more than [window_size]
    past the last line, or equal to [- window_size], selects nothing:
    the snippet is the empty string, and nothing is raised. *)
Theorem extract_sql_context_empty (sql : string) (L w : Z) :
  (0 ≤ w)%Z →
  (L + w = 0 ∨ Z.of_nat (length (str_split LF sql)) + w < L)%Z →
  extract_sql_context sql L w = EmptyString.
Proof.
  intros Hw Hout. rewrite extract_sql_context_clamped by lia.
  replace (Z.to_nat (Z.min (Z.of_nat (length (str_split LF sql))) (L + w))
           - Z.to_nat (Z.max 0 (L - 1 - w))) with 0 by lia.
  by rewrite take_0.
Qed.

Lemma extract_sql_context_empty_witness :
  extract_sql_context sql5 8 2 = EmptyString.
Proof.
  apply extract_sql_context_empty; [lia |].
  right. vm_compute. reflexivity.
Defined.

(** X5. For a line number [L] in range and [window_size >= 0], line [L]
    is always in the snippet, at index [min(L-1, window_size)]; it
    carries the star when [window_size <= L-1] and the bar of a context
    line otherwise. *)
Theorem extract_sql_context_offending_line (sql : string) (L w : Z) :
  let lines := str_split LF sql in
  let snippet := str_split LF (extract_sql_context sql L w) in
  (1 ≤ L ≤ Z.of_nat (length lines))%Z → (0 ≤ w)%Z →
  ∃ line, lines !! Z.to_nat (L - 1) = Some line
          ∧ snippet !! Z.to_nat (Z.min (L - 1) w)
            = Some ((if bool_decide (w ≤ L - 1)%Z then "* " else "| ") +:+ line).
Proof.
  intros lines snippet HL Hw. unfold snippet.
  rewrite extract_sql_context_lines; [|exact HL |lia].
  subst lines. set (lines := str_split LF sql) in *.
  destruct (lookup_lt_is_Some_2 lines (Z.to_nat (L - 1))) as [line Hline]; [lia |].
  exists line. split; [done |].
  rewrite mark_line_lookup, lookup_take_lt by lia.
  rewrite lookup_drop.
  replace (Z.to_nat (Z.max 0 (L - 1 - w)) + Z.to_nat (Z.min (L - 1) w))
    with (Z.to_nat (L - 1)) by lia.
  rewrite Hline. simpl.
  destruct (decide (w ≤ L - 1)%Z).
  - by rewrite !bool_decide_eq_true_2 by lia.
  - by rewrite !bool_decide_eq_false_2 by lia.
Qed.

Lemma extract_sql_context_offending_line_witness :
  ∃ line, str_split LF sql5 !! Z.to_nat (2 - 1) = Some line
          ∧ str_split LF (extract_sql_context sql5 2 2) !! Z.to_nat (Z.min (2 - 1) 2)
            = Some ((if bool_decide (2 ≤ 2 - 1)%Z then "* " else "| ") +:+ line).
Proof.
  apply (extract_sql_context_offending_line sql5 2 2); [|lia].
  vm_compute. split; discriminate.
Defined.

(** X6. For a line number in range and [window_size >= 0], line [i] of
    the snippet is line [max(1, L-w) + i] of the SQL behind a
    two-character prefix: the star and a space at index [window_size],
    the bar and a space everywhere else. *)
Theorem extract_sql_context_snippet_lines (sql : string) (L w : Z) :
  let lines := str_split LF sql in
  let snippet := str_split LF (extract_sql_context sql L w) in
  let start := Z.to_nat (Z.max 0 (L - 1 - w)) in
  (1 ≤ L ≤ Z.of_nat (length lines))%Z → (0 ≤ w)%Z →
  ∀ i marked, snippet !! i = Some marked →
    ∃ line, lines !! (start + i) = Some line
            ∧ marked = (if bool_decide (i = Z.to_nat w) then "* " else "| ") +:+ line.
Proof.
  intros lines snippet start HL Hw i marked. unfold snippet.
  rewrite extract_sql_context_lines; [|exact HL |lia].
  fold lines. fold start. rewrite mark_line_lookup. intros Hi.
  destruct (take _ _ !! i) as [line|] eqn:Hline; [|done].
  apply lookup_take_Some in Hline as [Hline _]. rewrite lookup_drop in Hline.
  exists line. split; [done |].
  simpl in Hi. injection Hi as <-.
  destruct (decide (i = Z.to_nat w)).
  - by rewrite !bool_decide_eq_true_2 by lia.
  - by rewrite !bool_decide_eq_false_2 by lia.
Qed.

Lemma extract_sql_context_snippet_lines_witness :
  ∃ line, str_split LF sql5 !! (Z.to_nat (Z.max 0 (4 - 1 - 1)) + 1) = Some line
          ∧ "* d" = (if bool_decide (1 = Z.to_nat 1) then "* " else "| ") +:+ line.
Proof.
  apply (extract_sql_context_snippet_lines sql5 4 1); [|lia |reflexivity].
  vm_compute. split; discriminate.
Defined.

(** X7. With [window_size >= 0] and [line_number + window_size < 0], the
    end of the window is not clamped and the slice reads it from the end
    of the list: the snippet is made of the first
    [max(0, N + line_number + window_size)] lines of the SQL. *)
Theorem extract_sql_context_wraps (sql : string) (L w : Z) :
  let lines := str_split LF sql in
  (0 ≤ w)%Z → (L + w < 0)%Z →
  extract_sql_context sql L w
  = str_join NL
      (mark_line (take (Z.to_nat (Z.of_nat (length lines) + (L + w))) lines) w "*")
  ∧ ((Z.of_nat (length lines) + (L + w) ≤ 0)%Z →
     extract_sql_context sql L w = EmptyString).
Proof.
  intros lines Hw Hend.
  split; [by apply extract_sql_context_negative_end |].
  intros Hfar. rewrite extract_sql_context_negative_end by done. fold lines.
  replace (Z.to_nat (Z.of_nat (length lines) + (L + w))) with 0 by lia.
  by rewrite take_0.
Qed.

Lemma extract_sql_context_wraps_witness :
  extract_sql_context sql5 (-4) 1
  = str_join NL (mark_line (take 2 (str_split LF sql5)) 1 "*").
Proof.
  exact (proj1 (extract_sql_context_wraps sql5 (-4) 1 ltac:(lia) ltac:(lia))).
Defined.

(** ** [compose_url] and the slashes *)

Section Slashes.

Lemma compose_url_list {A : Type} `{Str A} (base_url : string) (items : list A) :
  compose_url base_url (PathList items)
  = Return (str_join "/" (str_strip "/" base_url
                          :: (str_strip "/" <$> (str <$> items)))).
Proof.
  unfold compose_url. do 2 f_equal.
  rewrite fmap_app, <-!list_fmap_compose. done.
Qed.

Lemma str_lstrip_mul (a : nat) (s : string) :
  str_lstrip "/" (str_mul "/" a +:+ s) = str_lstrip "/" s.
Proof.
  induction a as [|a IH]; [done |].
  cbn [str_mul]. rewrite str_app_cons. cbn [str_lstrip].
  by rewrite in_chars_slash, Ascii.eqb_refl.
Qed.

Lemma str_rstrip_only_slashes (b : nat) : str_rstrip "/" (str_mul "/" b) = EmptyString.
Proof.
  induction b as [|b IH]; [done |].
  cbn [str_mul str_rstrip]. by rewrite IH.
Qed.

Lemma str_rstrip_mul (s : string) (b : nat) :
  str_rstrip "/" (s +:+ str_mul "/" b) = str_rstrip "/" s.
Proof.
  induction s as [|c s IH].
  - rewrite str_app_nil_l. apply str_rstrip_only_slashes.
  - rewrite str_app_cons. cbn [str_rstrip]. by rewrite IH.
Qed.

Lemma str_lstrip_only_slashes (b : nat) : str_lstrip "/" (str_mul "/" b) = EmptyString.
Proof. induction b as [|b IH]; [done |]. by cbn [str_mul str_lstrip]. Qed.

(** Slashes added at the two ends of a string are stripped with its
    own. *)
Lemma str_strip_pad (a b : nat) (s : string) :
  str_strip "/" (str_mul "/" a +:+ s +:+ str_mul "/" b) = str_strip "/" s.
Proof.
  unfold str_strip. rewrite str_lstrip_mul.
  induction s as [|c s IH].
  - by rewrite str_app_nil_l, str_lstrip_only_slashes.
  - rewrite str_app_cons. cbn [str_lstrip]. rewrite in_chars_slash.
    destruct (Ascii.eqb c "/"); [done |].
    by rewrite <-str_app_cons, str_rstrip_mul.
Qed.

(** A string with no slash at either end is left alone. *)
Lemma str_rstrip_id (s : string) :
  (∀ t, s ≠ t +:+ "/") → str_rstrip "/" s = s.
Proof.
  induction s as [|c s IH]; intros Hend; [done |].
  cbn [str_rstrip]. destruct s as [|d s].
  - cbn [str_rstrip]. rewrite in_chars_slash.
    destruct (Ascii.eqb_spec c "/") as [->|]; [|done].
    by destruct (Hend EmptyString).
  - rewrite IH; [done |].
    intros t E. apply (Hend (String c t)). by rewrite str_app_cons, <-E.
Qed.

Lemma str_strip_id (s : string) :
  (∀ t, s ≠ String "/" t) → (∀ t, s ≠ t +:+ "/") → str_strip "/" s = s.
Proof.
  intros Hstart Hend. unfold str_strip.
  assert (str_lstrip "/" s = s) as ->; [|by apply str_rstrip_id].
  destruct s as [|c s]; [done |].
  cbn [str_lstrip]. rewrite in_chars_slash.
  destruct (Ascii.eqb_spec c "/") as [->|]; [|done].
  by destruct (Hstart s).
Qed.

(** What ends a concatenation ends its second part, when there is one. *)
Lemma str_app_ends (a x t : string) :
  a +:+ x = t +:+ "/" → x ≠ EmptyString → ∃ t', x = t' +:+ "/".
Proof.
  revert t. induction a as [|c a IH]; intros t E Hx.
  - rewrite str_app_nil_l in E. by exists t.
  - rewrite str_app_cons in E. destruct t as [|c' t].
    + rewrite str_app_nil_l in E. injection E as _ E.
      destruct a; [by rewrite str_app_nil_l in E | done].
    + rewrite str_app_cons in E. injection E as _ E. by apply (IH t).
Qed.

(** A join starts as its first part starts and ends as its last part
    ends, when these are not empty. *)
Lemma str_join_start (p : string) (ps : list string) (t : string) :
  p ≠ EmptyString → str_join "/" (p :: ps) = String "/" t →
  ∃ t', p = String "/" t'.
Proof.
  intros Hp. destruct p as [|c p]; [done |]. destruct ps as [|p' ps].
  - intros [= -> ->]. by eexists.
  - rewrite str_join_cons, str_app_cons. intros [= -> _]. by eexists.
Qed.

Lemma str_join_end (ps : list string) (x t : string) :
  x ≠ EmptyString → str_join "/" (ps ++ [x]) = t +:+ "/" →
  ∃ t', x = t' +:+ "/".
Proof.
  intros Hx E. destruct ps as [|p ps]; [by exists t |].
  rewrite str_join_app in E by done.
  change (str_join "/" [x]) with x in E.
  rewrite <-str_app_assoc in E. by eapply str_app_ends.
Qed.

(** The stripped parts of a URL whose base and last element do not strip
    to nothing: the join has no slash at either end. *)
Lemma stripped_join_no_outer_slash {A : Type} `{Str A} (base_url : string)
    (items : list A) :
  str_strip "/" base_url ≠ EmptyString →
  (∀ e, last items = Some e → str_strip "/" (str e) ≠ EmptyString) →
  let url := str_join "/" (str_strip "/" base_url
                           :: (str_strip "/" <$> (str <$> items))) in
  (∀ t, url ≠ String "/" t) ∧ (∀ t, url ≠ t +:+ "/").
Proof.
  intros Hbase Hlast url. split.
  - intros t E. apply str_join_start in E as [t' E]; [|done].
    destruct (str_strip_slash base_url) as (_ & _ & _ & Hstart & _).
    by apply (Hstart t').
  - intros t E. unfold url in E.
    destruct items as [|e items _] using rev_ind.
    + simpl in E. destruct (str_strip_slash base_url) as (_ & _ & _ & _ & Hend).
      by apply (Hend t).
    + rewrite !fmap_app, app_comm_cons in E.
      change (str_strip "/" <$> (str <$> [e])) with [str_strip "/" (str e)] in E.
      apply str_join_end in E as [t' E].
      * destruct (str_strip_slash (str e)) as (_ & _ & _ & _ & Hend).
        by apply (Hend t').
      * apply Hlast. by rewrite last_snoc.
Qed.

End Slashes.

(** X8. Slashes at the two ends of the base URL or of an element do not
    change the URL: padding any of them with slashes on either side
    gives the same result. *)
Theorem compose_url_ignores_outer_slashes {A : Type} `{Str A}
    (base_url base_url' : string) (items items' : list A) :
  (∃ a b, base_url' = str_mul "/" a +:+ base_url +:+ str_mul "/" b) →
  Forall2 (λ x y, ∃ a b, str y = str_mul "/" a +:+ str x +:+ str_mul "/" b)
    items items' →
  compose_url base_url' (PathList items') = compose_url base_url (PathList items).
Proof.
  intros (a & b & ->) Hitems. rewrite !compose_url_list, str_strip_pad.
  do 3 f_equal.
  induction Hitems as [|x y items items' (a' & b' & Hy) _ IH]; [done |].
  rewrite !fmap_cons, Hy, str_strip_pad. by f_equal.
Qed.

Lemma compose_url_ignores_outer_slashes_witness :
  compose_url "//https://looker.example/" (PathList ["/api/"; "3.1//"])
  = compose_url "https://looker.example" (PathList ["api"; "3.1"]).
Proof.
  apply compose_url_ignores_outer_slashes.
  - by exists 2, 1.
  - repeat constructor; [by exists 1, 1 | by exists 0, 2].
Defined.

(** X9. When neither the base URL nor the last element strips to the
    empty string, the URL returned neither starts nor ends with a
    slash. *)
Theorem compose_url_no_outer_slash {A : Type} `{Str A} (base_url : string)
    (items : list A) (url : string) :
  str_strip "/" base_url ≠ EmptyString →
  (∀ e, last items = Some e → str_strip "/" (str e) ≠ EmptyString) →
  compose_url base_url (PathList items) = Return url →
  (∀ t, url ≠ String "/" t) ∧ (∀ t, url ≠ t +:+ "/").
Proof.
  intros Hbase Hlast Hurl. rewrite compose_url_list in Hurl.
  injection Hurl as <-. by apply stripped_join_no_outer_slash.
Qed.

Lemma compose_url_no_outer_slash_witness :
  (∀ t, "https://looker.example/api/3.1" ≠ String "/" t)
  ∧ (∀ t, "https://looker.example/api/3.1" ≠ t +:+ "/").
Proof.
  apply (compose_url_no_outer_slash "https://looker.example/" ["/api/"; "3.1/"]).
  - discriminate.
  - intros e [= <-]. discriminate.
  - reflexivity.
Defined.

(** X10. Composing in two steps is composing once: when neither the
    base URL nor the last element of the first path strips to the empty
    string, the URL of the first path extended by a second path is the
    URL of the two paths put end to end. *)
Theorem compose_url_compose {A : Type} `{Str A} (base_url : string)
    (path1 path2 : list A) (url : string) :
  str_strip "/" base_url ≠ EmptyString →
  (∀ e, last path1 = Some e → str_strip "/" (str e) ≠ EmptyString) →
  compose_url base_url (PathList path1) = Return url →
  compose_url url (PathList path2) = compose_url base_url (PathList (path1 ++ path2)).
Proof.
  intros Hbase Hlast Hurl.
  destruct (stripped_join_no_outer_slash base_url path1 Hbase Hlast) as [Hstart Hend].
  rewrite compose_url_list in Hurl. injection Hurl as <-.
  rewrite !compose_url_list, str_strip_id by done.
  f_equal. rewrite !fmap_app.
  destruct path2 as [|e path2]; [by rewrite app_nil_r |].
  rewrite app_comm_cons, str_join_app by done.
  by rewrite !fmap_cons, str_join_cons.
Qed.

Lemma compose_url_compose_witness :
  compose_url "https://looker.example/api" (PathList ["3.1"; "queries/"])
  = compose_url "https://looker.example/" (PathList (["/api/"] ++ ["3.1"; "queries/"])).
Proof.
  apply compose_url_compose.
  - discriminate.
  - intros e [= <-]. discriminate.
  - reflexivity.
Defined.

(** ** [parse_error_line_number], every message *)

Section Outcome.

Lemma int_from_nonneg (s : string) (acc : Z) :
  all_digits s = true → (0 ≤ acc)%Z → (0 ≤ int_from acc s)%Z.
Proof.
  revert acc. induction s as [|c s IH]; intros acc Hs Hacc; [done |].
  simpl in Hs. apply andb_true_iff in Hs as [Hc Hs].
  simpl. apply IH; [done |].
  unfold is_digit in Hc. apply andb_true_iff in Hc as [Hc _].
  apply Nat.leb_le in Hc. unfold digit_value. lia.
Qed.

(** A message holds a marker or it does not. *)
Lemma marker_at_dec (msg : string) :
  (∃ i L, marker_at msg i L) ∨ (∀ i L, ¬ marker_at msg i L).
Proof.
  induction msg as [|c msg IH].
  - right. intros i L. apply marker_at_empty.
  - destruct (match_here BQ_LINE_NUM_PATTERN (String c msg) [])
      as [[groups rest]|] eqn:Hmatch.
    + destruct (match_here_marker_inv _ _ _ Hmatch) as (L & C & HL & HC & _ & Hs).
      left. exists 0, L. by exists EmptyString, C, rest.
    + destruct IH as [(i & L & Hm)|Hnone].
      * left. exists (S i), L. by apply marker_at_next.
      * right. intros [|i] L Hm.
        -- apply marker_at_start in Hm as [after Hm]. congruence.
        -- apply marker_at_next in Hm. by apply (Hnone i L).
Qed.

(** The three ways a call ends. *)
Lemma parse_error_line_number_cases (msg : string) :
  (∃ i L, marker_at msg i L ∧ (∀ j L', marker_at msg j L' → i ≤ j)
          ∧ parse_error_line_number msg
            = if decide (String.length L ≤ int_max_str_digits)
              then Return (numeral_value L) else Raise ValueError)
  ∨ ((∀ i L, ¬ marker_at msg i L)
     ∧ parse_error_line_number msg = Raise (UnboundLocalError "line_number")).
Proof.
  destruct (marker_at_dec msg) as [Hsome|Hnone].
  - left. destruct (findall_first_marker msg Hsome) as (i & L & Hm & Hleft & Hfirst).
    exists i, L. split; [done |]. split; [done |].
    apply parse_error_line_number_group; [done |].
    by destruct Hm as (_ & _ & _ & _ & HL & _).
  - right. split; [done |]. by apply parse_error_line_number_no_marker.
Qed.

Lemma numeral_value_nonneg (L : string) : numeral L → (0 ≤ numeral_value L)%Z.
Proof.
  intros [_ HL].
  pose proof (int_from_value L 0 HL) as Hv.
  pose proof (int_from_nonneg L 0 HL) as Hn. lia.
Qed.

Lemma parse_error_line_number_nonneg (msg : string) (n : Z) :
  parse_error_line_number msg = Return n → (0 ≤ n)%Z.
Proof.
  destruct (parse_error_line_number_cases msg)
    as [(i & L & Hm & _ & ->)|[_ ->]]; [|done].
  case_decide; [|done].
  intros [= <-]. apply numeral_value_nonneg.
  by destruct Hm as (_ & _ & _ & _ & HL & _).
Qed.

End Outcome.

(** X11. A call ends in one of three ways, and the message decides
    which. With a marker in it whose leftmost line numeral has at most
    4300 digits, a line number that is not negative is returned; with
    one whose leftmost line numeral is longer, [int] raises
    [ValueError]; without a marker, [UnboundLocalError] is raised.
    [IndexError] never leaves the function. *)
Theorem parse_error_line_number_outcome (error_message : string) :
  (∃ i L, marker_at error_message i L
          ∧ (∀ j L', marker_at error_message j L' → i ≤ j)
          ∧ String.length L ≤ int_max_str_digits
          ∧ ∃ n, parse_error_line_number error_message = Return n ∧ (0 ≤ n)%Z)
  ∨ (∃ i L, marker_at error_message i L
            ∧ (∀ j L', marker_at error_message j L' → i ≤ j)
            ∧ int_max_str_digits < String.length L
            ∧ parse_error_line_number error_message = Raise ValueError)
  ∨ ((∀ i L, ¬ marker_at error_message i L)
     ∧ parse_error_line_number error_message
       = Raise (UnboundLocalError "line_number")).
Proof.
  destruct (parse_error_line_number_cases error_message)
    as [(i & L & Hm & Hleft & Hret)|Hnone]; [|by right; right].
  destruct (decide (String.length L ≤ int_max_str_digits)) as [Hle|Hgt].
  - left. exists i, L. split; [done |]. split; [done |]. split; [done |].
    exists (numeral_value L). split; [done |].
    apply numeral_value_nonneg. by destruct Hm as (_ & _ & _ & _ & HL & _).
  - right; left. exists i, L. split; [done |]. split; [done |].
    split; [lia | done].
Qed.

(** X12. A line number that [parse_error_line_number] returns never
    makes [extract_sql_context] read its slice from the end of the list:
    for every window size that is not negative, the snippet is made of
    the lines of the window that exist in the SQL. *)
Theorem extract_sql_context_of_parsed_line (error_message sql : string)
    (line_number w : Z) :
  let lines := str_split LF sql in
  let start := Z.to_nat (Z.max 0 (line_number - 1 - w)) in
  let stop := Z.to_nat (Z.min (Z.of_nat (length lines)) (line_number + w)) in
  parse_error_line_number error_message = Return line_number → (0 ≤ w)%Z →
  extract_sql_context sql line_number w
  = str_join NL (mark_line (take (stop - start) (drop start lines)) w "*").
Proof.
  intros lines start stop Hparse Hw.
  apply parse_error_line_number_nonneg in Hparse.
  apply extract_sql_context_clamped. lia.
Qed.

Lemma extract_sql_context_of_parsed_line_witness :
  extract_sql_context sql5 0 default_window_size
  = str_join NL (mark_line ["a"; "b"] default_window_size "*").
Proof.
  exact (extract_sql_context_of_parsed_line
           "Syntax error: Unexpected keyword at [0:1]" sql5 0 2
           eq_refl ltac:(lia)).
Defined.
